(** * LevelDB core: Slice, Status and the coding routines

    A shallow embedding of [include/leveldb/slice.h], [include/leveldb/status.h]
    and [util/coding.h].

    Memory is a map from addresses to chars; a [const char*] is an address,
    and a pointer that may be NULL is an [option] address.  Values of type
    [uint32_t] and [uint64_t] are integers of [Z] with the wrap-around
    written where the C++ code converts or shifts.  An output parameter
    ([uint32_t* value], [Slice* input]) is passed in and returned. *)

From Stdlib Require Import ZArith List Lia Bool.
From Stdlib.Strings Require Import Byte String.
Import ListNotations.
Local Open Scope Z_scope.

(** ** Chars, integers and memory *)

Definition ptr := nat.
Bind Scope nat_scope with ptr.
Definition Mem := ptr -> byte.

(** [static_cast<unsigned char>(c)] read as an integer. *)
Definition uchar (c : byte) : Z := Z.of_N (Byte.to_N c).

(** Conversion of an integer to a char: the low eight bits. *)
Definition to_char (z : Z) : byte :=
  match Byte.of_N (Z.to_N (z mod 256)) with
  | Some c => c
  | None => x00
  end.

Definition uint32 (z : Z) : Z := z mod 2 ^ 32.
Definition uint64 (z : Z) : Z := z mod 2 ^ 64.

(** [*p = c] *)
Definition store (m : Mem) (p : ptr) (c : byte) : Mem :=
  fun q => if Nat.eqb q p then c else m q.

(** The chars at [p], [p+1], ..., [p+n-1]. *)
Definition bytes_at (m : Mem) (p : ptr) (n : nat) : list byte :=
  map m (seq p n).

(** A memory whose first cells hold [l]; used to build concrete inputs. *)
Definition mem_of_list (l : list byte) : Mem := fun p => nth p l x00.

(** [memcmp(s1, s2, n)]: the chars are compared as unsigned chars.  The C
    standard fixes the sign of the result only; the difference of the first
    two chars that differ is the usual implementation. *)
Fixpoint memcmp (m : Mem) (s1 s2 : ptr) (n : nat) : Z :=
  match n with
  | O => 0
  | S n' =>
      let c1 := uchar (m s1) in
      let c2 := uchar (m s2) in
      if c1 =? c2 then memcmp m (S s1) (S s2) n' else c1 - c2
  end.

(** ** slice.h *)

Module Slice.

Record t : Type := mk { data_ : ptr; size_ : nat }.
Arguments mk (data_ size_)%_nat_scope.

Definition data (s : t) : ptr := data_ s.
Definition size (s : t) : nat := size_ s.
Definition empty (s : t) : bool := Nat.eqb (size_ s) 0.

(** [operator[]]; [None] is the failed [assert(n < size())]. *)
Definition index (m : Mem) (s : t) (n : nat) : option byte :=
  if Nat.ltb n (size s) then Some (m (data_ s + n)%nat) else None.

(** [remove_prefix]; [None] is the failed [assert(n <= size())]. *)
Definition remove_prefix (s : t) (n : nat) : option t :=
  if Nat.leb n (size s) then Some (mk (data_ s + n)%nat (size_ s - n)%nat) else None.

Definition ToString (m : Mem) (s : t) : list byte :=
  bytes_at m (data_ s) (size_ s).

Definition compare (m : Mem) (a b : t) : Z :=
  let min_len := if Nat.ltb (size_ a) (size_ b) then size_ a else size_ b in
  let r := memcmp m (data_ a) (data_ b) min_len in
  if r =? 0 then
    if Nat.ltb (size_ a) (size_ b) then -1
    else if Nat.ltb (size_ b) (size_ a) then 1
    else r
  else r.

Definition starts_with (m : Mem) (s x : t) : bool :=
  Nat.leb (size_ x) (size_ s) && (memcmp m (data_ s) (data_ x) (size_ x) =? 0).

Definition op_eq (m : Mem) (x y : t) : bool :=
  Nat.eqb (size x) (size y) && (memcmp m (data x) (data y) (size x) =? 0).

Definition op_ne (m : Mem) (x y : t) : bool := negb (op_eq m x y).

Section EmptyLiteral.
(** The address of the empty string literal that [Slice()] and [clear()]
    point at. *)
Variable empty_literal : ptr.

Definition default : t := mk empty_literal 0.
Definition clear (s : t) : t := mk empty_literal 0.
End EmptyLiteral.

End Slice.

(** ** coding.h *)

Module Coding.

(** *** Object representation of unsigned integers

    [memcpy] between an integer and a char array copies the object
    representation, whose byte order is the host's. *)

Fixpoint le_value (l : list byte) : Z :=
  match l with
  | [] => 0
  | c :: l' => uchar c + 256 * le_value l'
  end.

Fixpoint le_bytes (n : nat) (v : Z) : list byte :=
  match n with
  | O => []
  | S n' => to_char v :: le_bytes n' (v / 256)
  end.

(** [memcpy(&result, ptr, n)] on a host that is little-endian or not. *)
Definition memcpy_to_uint (little_endian : bool) (l : list byte) : Z :=
  if little_endian then le_value l else le_value (rev l).


Fixpoint store_list (m : Mem) (p : ptr) (l : list byte) : Mem :=
  match l with
  | [] => m
  | c :: l' => store_list (store m p c) (S p) l'
  end.

Section Port.
(** [port::kLittleEndian] (port/port.h): true iff the host is
    little-endian. *)
Variable kLittleEndian : bool.

Definition DecodeFixed32 (m : Mem) (p : ptr) : Z :=
  if kLittleEndian then
    memcpy_to_uint kLittleEndian (bytes_at m p 4)
  else
    Z.lor (Z.lor (Z.lor
      (uint32 (uchar (m p)))
      (uint32 (Z.shiftl (uint32 (uchar (m (p + 1)%nat))) 8)))
      (uint32 (Z.shiftl (uint32 (uchar (m (p + 2)%nat))) 16)))
      (uint32 (Z.shiftl (uint32 (uchar (m (p + 3)%nat))) 24)).

Definition DecodeFixed64 (m : Mem) (p : ptr) : Z :=
  if kLittleEndian then
    memcpy_to_uint kLittleEndian (bytes_at m p 8)
  else
    let lo := uint64 (DecodeFixed32 m p) in
    let hi := uint64 (DecodeFixed32 m (p + 4)%nat) in
    Z.lor (uint64 (Z.shiftl hi 32)) lo.
End Port.

(** Modelled from the spec: [EncodeFixed32] is declared in coding.h and
    defined in coding.cc.  It writes exactly 4 bytes, least-significant
    byte first, regardless of host byte order. *)
Definition EncodeFixed32 (m : Mem) (dst : ptr) (value : Z) : Mem :=
  let v := uint32 value in
  store_list m dst
    [ to_char (Z.land v 255);
      to_char (Z.land (Z.shiftr v 8) 255);
      to_char (Z.land (Z.shiftr v 16) 255);
      to_char (Z.land (Z.shiftr v 24) 255) ].

(** Modelled from the spec: [EncodeFixed64] is declared in coding.h and
    defined in coding.cc.  It writes exactly 8 bytes, least-significant
    byte first, regardless of host byte order. *)
Definition EncodeFixed64 (m : Mem) (dst : ptr) (value : Z) : Mem :=
  let v := uint64 value in
  store_list m dst
    [ to_char (Z.land v 255);
      to_char (Z.land (Z.shiftr v 8) 255);
      to_char (Z.land (Z.shiftr v 16) 255);
      to_char (Z.land (Z.shiftr v 24) 255);
      to_char (Z.land (Z.shiftr v 32) 255);
      to_char (Z.land (Z.shiftr v 40) 255);
      to_char (Z.land (Z.shiftr v 48) 255);
      to_char (Z.land (Z.shiftr v 56) 255) ].

(** Modelled from the spec: the varint format written by [EncodeVarint32]
    and [EncodeVarint64] (coding.cc).  The low 7 bits of each byte hold a
    payload chunk, least-significant chunk first; the high bit is 1 when
    more bytes follow and 0 on the final byte; no byte is written beyond
    the last non-zero chunk.  [n] bounds the number of continuation bytes:
    4 for a 32-bit value and 9 for a 64-bit value. *)
Fixpoint varint_bytes (n : nat) (v : Z) : list byte :=
  match n with
  | O => [to_char v]
  | S n' =>
      if 128 <=? v
      then to_char (Z.lor (Z.land v 127) 128) :: varint_bytes n' (Z.shiftr v 7)
      else [to_char v]
  end.

(** Modelled from the spec: [EncodeVarint32] (coding.cc) writes the
    minimal-length encoding at [dst] and returns the pointer past the last
    byte written. *)
Definition EncodeVarint32 (m : Mem) (dst : ptr) (v : Z) : Mem * ptr :=
  let bs := varint_bytes 4 (uint32 v) in
  (store_list m dst bs, (dst + List.length bs)%nat).

(** Modelled from the spec: [EncodeVarint64] (coding.cc), as
    [EncodeVarint32] for a 64-bit value. *)
Definition EncodeVarint64 (m : Mem) (dst : ptr) (v : Z) : Mem * ptr :=
  let bs := varint_bytes 9 (uint64 v) in
  (store_list m dst bs, (dst + List.length bs)%nat).

(** Modelled from the spec: [PutVarint32] (coding.cc) appends the encoding
    to a growable output buffer. *)
Definition PutVarint32 (dst : list byte) (v : Z) : list byte :=
  dst ++ varint_bytes 4 (uint32 v).

(** Modelled from the spec: [PutVarint64] (coding.cc). *)
Definition PutVarint64 (dst : list byte) (v : Z) : list byte :=
  dst ++ varint_bytes 9 (uint64 v).

(** Modelled from the spec: the loop of [VarintLength] (coding.cc), which
    returns the byte count of the encoding, computed from the magnitude of
    the value: the number of 7-bit groups needed. *)
Fixpoint VarintLength_loop (n : nat) (v : Z) (len : Z) : Z :=
  match n with
  | O => len
  | S n' => if 128 <=? v then VarintLength_loop n' (Z.shiftr v 7) (len + 1) else len
  end.

(** Modelled from the spec: [VarintLength] (coding.cc) takes a [uint64_t],
    which has at most 10 groups of 7 bits. *)
Definition VarintLength (v : Z) : Z := VarintLength_loop 9 (uint64 v) 1.

(** Modelled from the spec: the general multi-byte loop of the pointer-range
    decoders [GetVarint32PtrFallback] and [GetVarint64Ptr] (coding.cc).  It
    reads bytes from [p] while [p < limit], stops at the first byte whose
    high bit is 0, and returns NULL when [limit] is reached before that or
    when there are more continuation bytes than the type can hold ([n] is
    the number of bytes the type holds).  Each byte contributes its low 7
    bits at the current shift; [wrap] is the conversion to the target
    width, so bits shifted beyond it are dropped. *)
Fixpoint GetVarintPtr_loop (wrap : Z -> Z) (n : nat) (m : Mem) (p limit : ptr)
    (shift result : Z) (value : Z) : option ptr * Z :=
  match n with
  | O => (None, value)
  | S n' =>
      if Nat.ltb p limit then
        let byte := uchar (m p) in
        if Z.land byte 128 =? 0
        then (Some (S p), Z.lor result (wrap (Z.shiftl byte shift)))
        else GetVarintPtr_loop wrap n' m (S p) limit (shift + 7)
               (Z.lor result (wrap (Z.shiftl (Z.land byte 127) shift))) value
      else (None, value)
  end.

(** Modelled from the spec: [GetVarint32PtrFallback] (coding.cc); a 32-bit
    value occupies at most 5 bytes. *)
Definition GetVarint32PtrFallback (m : Mem) (p limit : ptr) (value : Z)
  : option ptr * Z :=
  GetVarintPtr_loop uint32 5 m p limit 0 0 value.

(** Modelled from the spec: [GetVarint64Ptr] (coding.cc); a 64-bit value
    occupies at most 10 bytes. *)
Definition GetVarint64Ptr (m : Mem) (p limit : ptr) (value : Z)
  : option ptr * Z :=
  GetVarintPtr_loop uint64 10 m p limit 0 0 value.

Section Fallback.
(** The routine [GetVarint32Ptr] falls back to; it is [extern] in
    coding.h. *)
Variable Fallback : Mem -> ptr -> ptr -> Z -> option ptr * Z.

Definition GetVarint32Ptr_with (m : Mem) (p limit : ptr) (value : Z)
  : option ptr * Z :=
  if Nat.ltb p limit then
    let result := uint32 (uchar (m p)) in
    if Z.land result 128 =? 0
    then (Some (p + 1)%nat, result)
    else Fallback m p limit value
  else Fallback m p limit value.
End Fallback.

Definition GetVarint32Ptr : Mem -> ptr -> ptr -> Z -> option ptr * Z :=
  GetVarint32Ptr_with GetVarint32PtrFallback.

(** Modelled from the spec: the cursor variant [GetVarint32] (coding.cc)
    runs the pointer-range decoder over the view; on success it advances
    the view past the consumed bytes and returns true, on failure it leaves
    the view unchanged and returns false. *)
Definition GetVarint32 (m : Mem) (input : Slice.t) (value : Z)
  : bool * Slice.t * Z :=
  let p := Slice.data input in
  let limit := (p + Slice.size input)%nat in
  match GetVarint32Ptr m p limit value with
  | (None, value') => (false, input, value')
  | (Some q, value') => (true, Slice.mk q (limit - q), value')
  end.

(** Modelled from the spec: [GetVarint64] (coding.cc). *)
Definition GetVarint64 (m : Mem) (input : Slice.t) (value : Z)
  : bool * Slice.t * Z :=
  let p := Slice.data input in
  let limit := (p + Slice.size input)%nat in
  match GetVarint64Ptr m p limit value with
  | (None, value') => (false, input, value')
  | (Some q, value') => (true, Slice.mk q (limit - q), value')
  end.



End Coding.

(** ** status.h *)

Module Status.

Inductive Code : Type :=
  | kOk
  | kNotFound
  | kCorruption
  | kNotSupported
  | kInvalidArgument
  | kIOError.

Definition Code_value (c : Code) : Z :=
  match c with
  | kOk => 0
  | kNotFound => 1
  | kCorruption => 2
  | kNotSupported => 3
  | kInvalidArgument => 4
  | kIOError => 5
  end.

(** [state_] is NULL for OK; otherwise it is a new[] array with
    [state_[0..3]] the length of the message, [state_[4]] the code and
    [state_[5..]] the message. *)
Record t : Type := mk { state_ : option (list byte) }.

Definition default : t := mk None.

Definition OK : t := default.

Definition ok (s : t) : bool :=
  match state_ s with
  | None => true
  | Some _ => false
  end.

(** [static_cast<Code>(state_[4])], as the integer value of the enum. *)
Definition code (s : t) : Z :=
  match state_ s with
  | None => Code_value kOk
  | Some st => uchar (nth 4 st x00)
  end.

Definition IsNotFound (s : t) : bool := code s =? Code_value kNotFound.
Definition IsCorruption (s : t) : bool := code s =? Code_value kCorruption.
Definition IsIOError (s : t) : bool := code s =? Code_value kIOError.
Definition IsNotSupportedError (s : t) : bool := code s =? Code_value kNotSupported.
Definition IsInvalidArgument (s : t) : bool := code s =? Code_value kInvalidArgument.

Section Impl.
(** Byte order of the host, for the [uint32_t] length kept in
    [state_[0..3]]. *)
Variable little_endian : bool.



(** The text [ToString] gives for a kind value that is none of the error
    kinds. *)
Variable unknown_kind : Z -> list byte.

(** Modelled from the spec: the kind name strings of [ToString]
    (status.cc). *)
Definition kind_name (c : Z) : list byte :=
  if c =? Code_value kNotFound then list_byte_of_string "NotFound"%string
  else if c =? Code_value kCorruption then list_byte_of_string "Corruption"%string
  else if c =? Code_value kNotSupported then list_byte_of_string "Not supported"%string
  else if c =? Code_value kInvalidArgument then list_byte_of_string "Invalid argument"%string
  else if c =? Code_value kIOError then list_byte_of_string "IO error"%string
  else unknown_kind c.

(** Modelled from the spec: [ToString] is declared in status.h and defined
    in status.cc.  It gives "OK" for success and otherwise the kind name,
    ": " and the message. *)
Definition ToString (s : t) : list byte :=
  match state_ s with
  | None => list_byte_of_string "OK"%string
  | Some st =>
      let length := Coding.memcpy_to_uint little_endian (firstn 4 st) in
      kind_name (code s) ++ list_byte_of_string ": "%string
        ++ firstn (Z.to_nat length) (skipn 5 st)
  end.
End Impl.


End Status.

(** ** Notions of the specification *)

(** Byte-wise lexicographic order on byte sequences, as the specification
    words it: the first differing byte decides, and a sequence that is a
    proper prefix of another comes first. *)
Fixpoint lex_compare (a b : list byte) : comparison :=
  match a, b with
  | [], [] => Eq
  | [], _ :: _ => Lt
  | _ :: _, [] => Gt
  | x :: a', y :: b' =>
      match uchar x ?= uchar y with
      | Eq => lex_compare a' b'
      | c => c
      end
  end.

(** The payload of a varint byte sequence as the specification describes
    the format: the low 7 bits of each byte form a chunk, least-significant
    chunk first; [wrap] keeps the bits of the target width. *)
Fixpoint varint_payload (wrap : Z -> Z) (l : list byte) (shift : Z) : Z :=
  match l with
  | [] => 0
  | c :: l' =>
      Z.lor (wrap (Z.shiftl (Z.land (uchar c) 127) shift))
            (varint_payload wrap l' (shift + 7))
  end.

(** A byte with the continuation flag set. *)
Definition continues (c : byte) : Prop := 128 <= uchar c.

(** The three slices "abc", "abd" and "ab", laid out one after the other. *)
Definition abc_mem : Mem := mem_of_list (list_byte_of_string "abcabdab"%string).
Definition s_abc : Slice.t := Slice.mk 0 3.
Definition s_abd : Slice.t := Slice.mk 3 3.
Definition s_ab : Slice.t := Slice.mk 6 2.

(** * Properties *)

Lemma uchar_range (c : byte) : 0 <= uchar c < 256.
Proof.
  unfold uchar. pose proof (Byte.to_N_bounded c). lia.
Qed.

Lemma uchar_to_char (z : Z) : uchar (to_char z) = z mod 256.
Proof.
  unfold uchar, to_char.
  assert (Hr : 0 <= z mod 256 < 256) by (apply Z.mod_pos_bound; lia).
  destruct (Byte.of_N (Z.to_N (z mod 256))) as [c|] eqn:E.
  - apply Byte.to_of_N in E. rewrite E. lia.
  - apply Byte.of_N_None_iff in E. lia.
Qed.

Lemma uchar_inj (c d : byte) : uchar c = uchar d -> c = d.
Proof.
  unfold uchar. intros H. apply N2Z.inj in H.
  pose proof (Byte.of_to_N c) as Hc. rewrite H, Byte.of_to_N in Hc.
  congruence.
Qed.

Lemma to_char_uchar (c : byte) : to_char (uchar c) = c.
Proof.
  apply uchar_inj. rewrite uchar_to_char.
  apply Z.mod_small, uchar_range.
Qed.

Lemma bytes_at_S m p n : bytes_at m p (S n) = m p :: bytes_at m (S p) n.
Proof. reflexivity. Qed.

Module SliceFacts.
Import Slice.

(** [compare] against the lexicographic order of the referenced bytes. *)
Lemma compare_lex m : forall na pa nb pb,
  match lex_compare (bytes_at m pa na) (bytes_at m pb nb) with
  | Lt => compare m (mk pa na) (mk pb nb) < 0
  | Eq => compare m (mk pa na) (mk pb nb) = 0
  | Gt => compare m (mk pa na) (mk pb nb) > 0
  end.
Proof.
  induction na as [|na IH]; intros pa [|nb] pb.
  - reflexivity.
  - cbn. lia.
  - cbn. lia.
  - rewrite !bytes_at_S. cbn [lex_compare].
    specialize (IH (S pa) nb (S pb)).
    unfold compare in *. cbn [data_ size_] in *.
    change (Nat.ltb (S na) (S nb)) with (Nat.ltb na nb).
    change (Nat.ltb (S nb) (S na)) with (Nat.ltb nb na).
    assert (Hm : memcmp m pa pb (if Nat.ltb na nb then S na else S nb) =
                 if uchar (m pa) =? uchar (m pb)
                 then memcmp m (S pa) (S pb) (if Nat.ltb na nb then na else nb)
                 else uchar (m pa) - uchar (m pb))
      by (destruct (Nat.ltb na nb); reflexivity).
    rewrite Hm. clear Hm.
    destruct (Z.compare_spec (uchar (m pa)) (uchar (m pb))) as [E|E|E].
    + rewrite E, Z.eqb_refl. exact IH.
    + destruct (Z.eqb_spec (uchar (m pa)) (uchar (m pb))); [lia|].
      destruct (Z.eqb_spec (uchar (m pa) - uchar (m pb)) 0); lia.
    + destruct (Z.eqb_spec (uchar (m pa)) (uchar (m pb))); [lia|].
      destruct (Z.eqb_spec (uchar (m pa) - uchar (m pb)) 0); lia.
Qed.

Lemma op_eq_compare m a b : op_eq m a b = true <-> compare m a b = 0.
Proof.
  destruct a as [pa na], b as [pb nb].
  unfold op_eq, compare, size, data. cbn [data_ size_].
  rewrite andb_true_iff, Nat.eqb_eq, Z.eqb_eq.
  destruct (Nat.ltb_spec na nb) as [L|L].
  - destruct (Z.eqb_spec (memcmp m pa pb na) 0); split; intros; lia.
  - destruct (Nat.ltb_spec nb na) as [G|G].
    + destruct (Z.eqb_spec (memcmp m pa pb nb) 0); split; intros; lia.
    + assert (na = nb) by lia. subst nb.
      destruct (Z.eqb_spec (memcmp m pa pb na) 0); split; intros; lia.
Qed.

(** C8: [a.compare(b)] is negative, zero or positive exactly when the bytes
    of [a] are below, equal to or above the bytes of [b] in byte-wise
    lexicographic order (a proper prefix first); [a == b] holds exactly when
    [a.compare(b) == 0]; "abc" < "abd", "ab" < "abc" and "abc" == "abc". *)
Theorem compare_is_lexicographic :
  (forall m a b,
      (compare m a b < 0 <-> lex_compare (ToString m a) (ToString m b) = Lt) /\
      (compare m a b = 0 <-> lex_compare (ToString m a) (ToString m b) = Eq) /\
      (compare m a b > 0 <-> lex_compare (ToString m a) (ToString m b) = Gt) /\
      (op_eq m a b = true <-> compare m a b = 0)) /\
  compare abc_mem s_abc s_abd < 0 /\
  compare abc_mem s_ab s_abc < 0 /\
  compare abc_mem s_abc s_abc = 0 /\
  op_eq abc_mem s_abc s_abc = true.
Proof.
  split.
  - intros m [pa na] [pb nb]. unfold ToString. cbn [data_ size_].
    pose proof (compare_lex m na pa nb pb) as H.
    destruct (lex_compare (bytes_at m pa na) (bytes_at m pb nb));
      repeat split; intros; try discriminate; try lia;
      try (apply op_eq_compare; assumption).
  - repeat split; reflexivity.
Qed.

(** C10: two slices of length zero are [==] and compare equal whatever
    their data pointers are; so do the default slice and a cleared one. *)
Theorem empty_slices_equal :
  forall (m : Mem) (p q : ptr),
    op_eq m (mk p 0) (mk q 0) = true /\
    compare m (mk p 0) (mk q 0) = 0 /\
    (forall lit s,
        op_eq m (default lit) (mk q 0) = true /\
        compare m (default lit) (mk q 0) = 0 /\
        op_eq m (clear lit s) (mk q 0) = true /\
        compare m (clear lit s) (mk q 0) = 0 /\
        op_eq m (mk q 0) (clear lit s) = true /\
        compare m (mk q 0) (clear lit s) = 0).
Proof.
  intros m p q. repeat split.
Qed.

End SliceFacts.

(** ** Bit arithmetic *)

Lemma lor_shiftl_add (n a b : Z) :
  0 <= n -> 0 <= a < 2 ^ n -> Z.lor a (Z.shiftl b n) = a + b * 2 ^ n.
Proof.
  intros Hn Ha. rewrite Z.shiftl_mul_pow2 by assumption.
  assert (H0 : Z.land a (b * 2 ^ n) = 0).
  { apply Z.bits_inj'. intros i Hi.
    rewrite Z.land_spec, Z.bits_0.
    destruct (Z.lt_ge_cases i n) as [L|G].
    - rewrite Z.mul_pow2_bits_low by assumption. apply andb_false_r.
    - rewrite <- (Z.mod_small a (2 ^ n)) by assumption.
      rewrite Z.mod_pow2_bits_high by lia. reflexivity. }
  rewrite <- (Z.add_lor_land a (b * 2 ^ n)), H0. lia.
Qed.

Lemma uint32_small (z : Z) : 0 <= z < 2 ^ 32 -> uint32 z = z.
Proof. intros H. unfold uint32. apply Z.mod_small. exact H. Qed.

Lemma uint64_small (z : Z) : 0 <= z < 2 ^ 64 -> uint64 z = z.
Proof. intros H. unfold uint64. apply Z.mod_small. exact H. Qed.

Lemma to_char_mod (z : Z) : to_char (z mod 256) = to_char z.
Proof.
  apply uchar_inj. rewrite !uchar_to_char. apply Z.mod_mod. lia.
Qed.

Lemma to_char_land_255 (z : Z) : to_char (Z.land z 255) = to_char z.
Proof.
  change 255 with (Z.ones 8). rewrite Z.land_ones by lia.
  apply to_char_mod.
Qed.

Module FixedFacts.
Import Coding.

Lemma le_value_le_bytes (n : nat) : forall v,
  le_value (le_bytes n v) = v mod 2 ^ (8 * Z.of_nat n).
Proof.
  induction n as [|n IH]; intros v.
  - cbn. symmetry. apply Z.mod_1_r.
  - cbn [le_bytes le_value]. rewrite IH, uchar_to_char.
    replace (8 * Z.of_nat (S n)) with (8 + 8 * Z.of_nat n) by lia.
    rewrite Z.pow_add_r by lia.
    change (2 ^ 8) with 256.
    rewrite Z.rem_mul_r by lia. reflexivity.
Qed.



Lemma store_other m p c q : q <> p -> store m p c q = m q.
Proof.
  intros H. unfold store. destruct (Nat.eqb_spec q p); congruence.
Qed.

Lemma store_same m p c : store m p c p = c.
Proof. unfold store. now rewrite Nat.eqb_refl. Qed.

Lemma store_list_below l : forall m p q,
  (q < p)%nat -> store_list m p l q = m q.
Proof.
  induction l as [|c l IH]; intros m p q H; cbn.
  - reflexivity.
  - rewrite IH by lia. apply store_other. lia.
Qed.

Lemma bytes_at_store_list l : forall m p,
  bytes_at (store_list m p l) p (List.length l) = l.
Proof.
  induction l as [|c l IH]; intros m p.
  - reflexivity.
  - cbn [List.length store_list]. unfold bytes_at in *. cbn [seq map].
    rewrite IH. rewrite store_list_below by lia.
    now rewrite store_same.
Qed.

Lemma EncodeFixed32_bytes m dst x :
  bytes_at (EncodeFixed32 m dst x) dst 4 = le_bytes 4 (uint32 x).
Proof.
  unfold EncodeFixed32.
  rewrite (bytes_at_store_list [_; _; _; _]).
  cbn [le_bytes]. rewrite !to_char_land_255.
  rewrite !Z.shiftr_div_pow2 by lia.
  rewrite !Z.div_div by lia. reflexivity.
Qed.

Lemma EncodeFixed64_bytes m dst x :
  bytes_at (EncodeFixed64 m dst x) dst 8 = le_bytes 8 (uint64 x).
Proof.
  unfold EncodeFixed64.
  rewrite (bytes_at_store_list [_; _; _; _; _; _; _; _]).
  cbn [le_bytes]. rewrite !to_char_land_255.
  rewrite !Z.shiftr_div_pow2 by lia.
  rewrite !Z.div_div by lia. reflexivity.
Qed.

(** The explicit byte assembly of [DecodeFixed32] is the little-endian
    sum. *)
Lemma assemble32 (b0 b1 b2 b3 : Z) :
  0 <= b0 < 256 -> 0 <= b1 < 256 -> 0 <= b2 < 256 -> 0 <= b3 < 256 ->
  Z.lor (Z.lor (Z.lor b0 (Z.shiftl b1 8)) (Z.shiftl b2 16)) (Z.shiftl b3 24)
  = b0 + 256 * (b1 + 256 * (b2 + 256 * b3)).
Proof.
  intros H0 H1 H2 H3.
  rewrite (lor_shiftl_add 8) by lia.
  rewrite (lor_shiftl_add 16) by lia.
  rewrite (lor_shiftl_add 24) by lia.
  lia.
Qed.

Lemma DecodeFixed32_sum (kle : bool) m p :
  DecodeFixed32 kle m p =
  uchar (m p) + 256 * (uchar (m (p + 1)%nat) + 256 *
    (uchar (m (p + 2)%nat) + 256 * uchar (m (p + 3)%nat))).
Proof.
  pose proof (uchar_range (m p)).
  pose proof (uchar_range (m (p + 1)%nat)).
  pose proof (uchar_range (m (p + 2)%nat)).
  pose proof (uchar_range (m (p + 3)%nat)).
  unfold DecodeFixed32. destruct kle.
  - unfold memcpy_to_uint, bytes_at. cbn [seq map le_value].
    replace (S p) with (p + 1)%nat by lia.
    replace (S (p + 1)) with (p + 2)%nat by lia.
    replace (S (p + 2)) with (p + 3)%nat by lia.
    lia.
  - rewrite !(uint32_small (uchar _)) by lia.
    rewrite !Z.shiftl_mul_pow2 by lia.
    rewrite !uint32_small by lia.
    rewrite <- !Z.shiftl_mul_pow2 by lia.
    apply assemble32; assumption.
Qed.

Lemma DecodeFixed32_range (kle : bool) m p :
  0 <= DecodeFixed32 kle m p < 2 ^ 32.
Proof.
  rewrite DecodeFixed32_sum.
  pose proof (uchar_range (m p)).
  pose proof (uchar_range (m (p + 1)%nat)).
  pose proof (uchar_range (m (p + 2)%nat)).
  pose proof (uchar_range (m (p + 3)%nat)).
  lia.
Qed.

Lemma DecodeFixed64_sum (kle : bool) m p :
  DecodeFixed64 kle m p =
  DecodeFixed32 kle m p + 2 ^ 32 * DecodeFixed32 kle m (p + 4)%nat.
Proof.
  pose proof (DecodeFixed32_range false m p) as Hlo.
  pose proof (DecodeFixed32_range false m (p + 4)%nat) as Hhi.
  unfold DecodeFixed64. destruct kle.
  - rewrite !DecodeFixed32_sum.
    unfold memcpy_to_uint, bytes_at. cbn [seq map le_value].
    replace (S p) with (p + 1)%nat by lia.
    replace (S (p + 1)) with (p + 2)%nat by lia.
    replace (S (p + 2)) with (p + 3)%nat by lia.
    replace (S (p + 3)) with (p + 4)%nat by lia.
    replace (S (p + 4)) with (p + 4 + 1)%nat by lia.
    replace (S (p + 4 + 1)) with (p + 4 + 2)%nat by lia.
    replace (S (p + 4 + 2)) with (p + 4 + 3)%nat by lia.
    lia.
  - rewrite !(uint64_small (DecodeFixed32 _ _ _)) by lia.
    rewrite Z.shiftl_mul_pow2 by lia.
    rewrite uint64_small by lia.
    rewrite <- Z.shiftl_mul_pow2 by lia.
    rewrite Z.lor_comm. rewrite (lor_shiftl_add 32) by lia. lia.
Qed.

Lemma DecodeFixed32_le_value (kle : bool) m p :
  DecodeFixed32 kle m p = le_value (bytes_at m p 4).
Proof.
  rewrite DecodeFixed32_sum. unfold bytes_at. cbn [seq map le_value].
  replace (S p) with (p + 1)%nat by lia.
  replace (S (p + 1)) with (p + 2)%nat by lia.
  replace (S (p + 2)) with (p + 3)%nat by lia.
  lia.
Qed.

Lemma DecodeFixed64_le_value (kle : bool) m p :
  DecodeFixed64 kle m p = le_value (bytes_at m p 8).
Proof.
  rewrite DecodeFixed64_sum, !DecodeFixed32_sum.
  unfold bytes_at. cbn [seq map le_value].
  replace (S p) with (p + 1)%nat by lia.
  replace (S (p + 1)) with (p + 2)%nat by lia.
  replace (S (p + 2)) with (p + 3)%nat by lia.
  replace (S (p + 3)) with (p + 4)%nat by lia.
  replace (S (p + 4)) with (p + 4 + 1)%nat by lia.
  replace (S (p + 4 + 1)) with (p + 4 + 2)%nat by lia.
  replace (S (p + 4 + 2)) with (p + 4 + 3)%nat by lia.
  lia.
Qed.

Lemma assemble64 (b0 b1 b2 b3 b4 b5 b6 b7 : Z) :
  0 <= b0 < 256 -> 0 <= b1 < 256 -> 0 <= b2 < 256 -> 0 <= b3 < 256 ->
  0 <= b4 < 256 -> 0 <= b5 < 256 -> 0 <= b6 < 256 -> 0 <= b7 < 256 ->
  Z.lor (Z.lor (Z.lor (Z.lor (Z.lor (Z.lor (Z.lor
    b0 (Z.shiftl b1 8)) (Z.shiftl b2 16)) (Z.shiftl b3 24)) (Z.shiftl b4 32))
    (Z.shiftl b5 40)) (Z.shiftl b6 48)) (Z.shiftl b7 56)
  = (b0 + 256 * (b1 + 256 * (b2 + 256 * b3)))
    + 2 ^ 32 * (b4 + 256 * (b5 + 256 * (b6 + 256 * b7))).
Proof.
  intros H0 H1 H2 H3 H4 H5 H6 H7.
  rewrite (lor_shiftl_add 8) by lia.
  rewrite (lor_shiftl_add 16) by lia.
  rewrite (lor_shiftl_add 24) by lia.
  rewrite (lor_shiftl_add 32) by lia.
  rewrite (lor_shiftl_add 40) by lia.
  rewrite (lor_shiftl_add 48) by lia.
  rewrite (lor_shiftl_add 56) by lia.
  lia.
Qed.

(** C3: on every 4-byte (8-byte) input the raw load of a little-endian host
    and the explicit byte assembly of [DecodeFixed32] ([DecodeFixed64]) give
    the same result, the little-endian value
    bytes[0] | bytes[1]<<8 | bytes[2]<<16 | bytes[3]<<24 (continued up to
    bytes[7]<<56); decoding what [EncodeFixed32] ([EncodeFixed64]) wrote
    gives back the encoded integer. *)
Theorem DecodeFixed_branches_agree (m : Mem) (p dst : ptr) (x y : Z)
  (Hx : 0 <= x < 2 ^ 32) (Hy : 0 <= y < 2 ^ 64) :
  let b (i : nat) := uchar (m (p + i)%nat) in
  DecodeFixed32 true m p = DecodeFixed32 false m p /\
  DecodeFixed32 false m p =
    Z.lor (Z.lor (Z.lor (b 0%nat) (Z.shiftl (b 1%nat) 8))
      (Z.shiftl (b 2%nat) 16)) (Z.shiftl (b 3%nat) 24) /\
  DecodeFixed64 true m p = DecodeFixed64 false m p /\
  DecodeFixed64 false m p =
    Z.lor (Z.lor (Z.lor (Z.lor (Z.lor (Z.lor (Z.lor
      (b 0%nat) (Z.shiftl (b 1%nat) 8)) (Z.shiftl (b 2%nat) 16))
      (Z.shiftl (b 3%nat) 24)) (Z.shiftl (b 4%nat) 32))
      (Z.shiftl (b 5%nat) 40)) (Z.shiftl (b 6%nat) 48))
      (Z.shiftl (b 7%nat) 56) /\
  (forall kle, DecodeFixed32 kle (EncodeFixed32 m dst x) dst = x) /\
  (forall kle, DecodeFixed64 kle (EncodeFixed64 m dst y) dst = y).
Proof.
  intros b. subst b. cbv beta.
  replace (p + 0)%nat with p by lia.
  repeat split.
  - now rewrite !DecodeFixed32_sum.
  - rewrite DecodeFixed32_sum. symmetry.
    apply assemble32; apply uchar_range.
  - now rewrite !DecodeFixed64_sum, !DecodeFixed32_sum.
  - rewrite DecodeFixed64_sum, !DecodeFixed32_sum.
    replace (p + 4 + 1)%nat with (p + 5)%nat by lia.
    replace (p + 4 + 2)%nat with (p + 6)%nat by lia.
    replace (p + 4 + 3)%nat with (p + 7)%nat by lia.
    symmetry. apply assemble64; apply uchar_range.
  - intros kle. rewrite DecodeFixed32_le_value, EncodeFixed32_bytes.
    rewrite le_value_le_bytes. change (8 * Z.of_nat 4) with 32.
    rewrite (uint32_small x) by assumption. now apply Z.mod_small.
  - intros kle. rewrite DecodeFixed64_le_value, EncodeFixed64_bytes.
    rewrite le_value_le_bytes. change (8 * Z.of_nat 8) with 64.
    rewrite (uint64_small y) by assumption. now apply Z.mod_small.
Qed.

(** The round trip at the integers 0x12345678 and 0x0123456789abcdef. *)
Lemma DecodeFixed_branches_agree_witness :
  (0 <= 305419896 < 2 ^ 32 /\ 0 <= 81985529216486895 < 2 ^ 64) /\
  let m := mem_of_list [x78; x56; x34; x12] in
  DecodeFixed32 true m 0 = DecodeFixed32 false m 0 /\
  DecodeFixed32 true (EncodeFixed32 m 4 305419896) 4 = 305419896 /\
  DecodeFixed64 false (EncodeFixed64 m 4 81985529216486895) 4
    = 81985529216486895.
Proof.
  assert (Hx : 0 <= 305419896 < 2 ^ 32) by (vm_compute; split; congruence).
  assert (Hy : 0 <= 81985529216486895 < 2 ^ 64)
    by (vm_compute; split; congruence).
  split; [split; assumption | ].
  intros m.
  destruct (DecodeFixed_branches_agree m 0 4 305419896 81985529216486895 Hx Hy)
    as (H1 & _ & _ & _ & H5 & H6).
  split; [exact H1 | split; [exact (H5 true) | exact (H6 false)]].
Defined.

End FixedFacts.

Module VarintFacts.
Import Coding.

(** *** Single bytes *)

Lemma land_128 (c : byte) : (Z.land (uchar c) 128 =? 0) = (uchar c <? 128).
Proof. destruct c; reflexivity. Qed.

Lemma land_127 (z : Z) : Z.land z 127 = z mod 128.
Proof. change 127 with (Z.ones 7). now rewrite Z.land_ones by lia. Qed.

Lemma continuation_byte (v : Z) :
  uchar (to_char (Z.lor (Z.land v 127) 128)) = v mod 128 + 128.
Proof.
  rewrite uchar_to_char, land_127.
  pose proof (Z.mod_pos_bound v 128 ltac:(lia)) as H.
  change 128 with (Z.shiftl 1 7) at 2.
  rewrite (lor_shiftl_add 7) by (change (2 ^ 7) with 128; lia).
  change (1 * 2 ^ 7) with 128.
  apply Z.mod_small. lia.
Qed.

Lemma final_byte (v : Z) : 0 <= v < 128 -> uchar (to_char v) = v.
Proof. intros H. rewrite uchar_to_char. apply Z.mod_small. lia. Qed.

Lemma pow7_S (n : nat) : 2 ^ (7 * Z.of_nat (S (S n))) = 128 * 2 ^ (7 * Z.of_nat (S n)).
Proof.
  replace (7 * Z.of_nat (S (S n))) with (7 + 7 * Z.of_nat (S n)) by lia.
  rewrite Z.pow_add_r by lia. reflexivity.
Qed.

Lemma shiftr_7_range (n : nat) (v : Z) :
  0 <= v < 2 ^ (7 * Z.of_nat (S (S n))) ->
  0 <= Z.shiftr v 7 < 2 ^ (7 * Z.of_nat (S n)).
Proof.
  intros H. rewrite pow7_S in H.
  rewrite Z.shiftr_div_pow2 by lia. change (2 ^ 7) with 128.
  split.
  - apply Z.div_pos; lia.
  - apply Z.div_lt_upper_bound; lia.
Qed.

(** *** Shape and length of an encoding *)

(** An encoding is a run of continuation bytes closed by one byte below
    128, at most [n] continuation bytes when the value has [7(n+1)] bits. *)
Lemma varint_bytes_shape (n : nat) : forall v,
  0 <= v < 2 ^ (7 * Z.of_nat (S n)) ->
  exists pre last,
    varint_bytes n v = pre ++ [last] /\
    Forall continues pre /\ uchar last < 128 /\ (List.length pre <= n)%nat.
Proof.
  induction n as [|n IH]; intros v Hv.
  - exists [], (to_char v). cbn [varint_bytes].
    change (2 ^ (7 * Z.of_nat 1)) with 128 in Hv.
    rewrite final_byte by lia.
    repeat split; [constructor | lia | cbn; lia].
  - cbn [varint_bytes]. destruct (Z.leb_spec 128 v) as [G|L].
    + destruct (IH (Z.shiftr v 7) (shiftr_7_range n v Hv))
        as (pre & last & E & Hpre & Hlast & Hlen).
      exists (to_char (Z.lor (Z.land v 127) 128) :: pre), last.
      rewrite E. repeat split.
      * constructor; [ | exact Hpre].
        unfold continues. rewrite continuation_byte.
        pose proof (Z.mod_pos_bound v 128 ltac:(lia)). lia.
      * exact Hlast.
      * cbn. lia.
    + exists [], (to_char v). rewrite final_byte by lia.
      repeat split; [constructor | lia | cbn; lia].
Qed.

(** [VarintLength_loop] counts the bytes of the encoding; the bound on the
    iterations is never what stops it. *)
Lemma VarintLength_loop_length (n : nat) : forall k v len,
  0 <= v < 2 ^ (7 * Z.of_nat (S n)) -> (n <= k)%nat ->
  VarintLength_loop k v len = len - 1 + Z.of_nat (List.length (varint_bytes n v)).
Proof.
  induction n as [|n IH]; intros k v len Hv Hk.
  - change (2 ^ (7 * Z.of_nat 1)) with 128 in Hv.
    cbn [varint_bytes List.length].
    destruct k as [|k]; cbn [VarintLength_loop].
    + lia.
    + destruct (Z.leb_spec 128 v); lia.
  - destruct k as [|k]; [lia|].
    cbn [VarintLength_loop varint_bytes].
    destruct (Z.leb_spec 128 v) as [G|L].
    + rewrite (IH k (Z.shiftr v 7) (len + 1) (shiftr_7_range n v Hv)) by lia.
      cbn [List.length]. lia.
    + cbn [List.length]. lia.
Qed.

(** *** Payload of an encoding *)

Lemma payload_varint_bytes (w : Z) (n : nat) : forall v s,
  0 <= v < 2 ^ (7 * Z.of_nat (S n)) -> 0 <= s -> v * 2 ^ s < 2 ^ w ->
  varint_payload (fun z => z mod 2 ^ w) (varint_bytes n v) s = v * 2 ^ s.
Proof.
  assert (Hlast : forall v s, 0 <= v < 128 -> 0 <= s -> v * 2 ^ s < 2 ^ w ->
            varint_payload (fun z => z mod 2 ^ w) [to_char v] s = v * 2 ^ s).
  { intros v s Hv Hs Hw. cbn [varint_payload].
    rewrite Z.lor_0_r, final_byte, land_127 by lia.
    rewrite (Z.mod_small v 128) by lia.
    rewrite Z.shiftl_mul_pow2 by lia.
    apply Z.mod_small. split; [ | exact Hw].
    apply Z.mul_nonneg_nonneg; [lia | apply Z.pow_nonneg; lia]. }
  induction n as [|n IH]; intros v s Hv Hs Hw.
  - change (2 ^ (7 * Z.of_nat 1)) with 128 in Hv.
    cbn [varint_bytes]. now apply Hlast.
  - cbn [varint_bytes]. destruct (Z.leb_spec 128 v) as [G|L].
    + cbn [varint_payload].
      assert (Hp : 0 < 2 ^ s) by (apply Z.pow_pos_nonneg; lia).
      assert (Hq : 0 <= v / 128) by (apply Z.div_pos; lia).
      assert (Hd : v = 128 * (v / 128) + v mod 128)
        by (apply Z.div_mod; lia).
      pose proof (Z.mod_pos_bound v 128 ltac:(lia)) as Hm.
      assert (Hs7 : 2 ^ (s + 7) = 2 ^ s * 128)
        by (rewrite Z.pow_add_r by lia; reflexivity).
      rewrite IH; [ | apply shiftr_7_range; exact Hv | lia | ].
      * rewrite continuation_byte, land_127.
        replace ((v mod 128 + 128) mod 128) with (v mod 128)
          by (rewrite <- Z.add_mod_idemp_r, Z.mod_same, Z.add_0_r, Z.mod_mod; lia).
        rewrite Z.shiftl_mul_pow2 by lia.
        rewrite (Z.mod_small (v mod 128 * 2 ^ s)) by nia.
        rewrite Z.shiftr_div_pow2 by lia. change (2 ^ 7) with 128.
        rewrite <- (Z.shiftl_mul_pow2 (v / 128)) by lia.
        rewrite (lor_shiftl_add (s + 7)) by (rewrite ?Hs7; nia).
        rewrite Hs7. nia.
      * rewrite Z.shiftr_div_pow2 by lia. change (2 ^ 7) with 128.
        rewrite Hs7. nia.
    + now apply Hlast.
Qed.

(** *** The decoding loop *)

Lemma loop_last wrap n m p limit s r val :
  (p < limit)%nat -> uchar (m p) < 128 ->
  GetVarintPtr_loop wrap (S n) m p limit s r val =
  (Some (S p), Z.lor r (wrap (Z.shiftl (uchar (m p)) s))).
Proof.
  intros Hp Hc. cbn [GetVarintPtr_loop].
  apply Nat.ltb_lt in Hp. rewrite Hp, land_128.
  apply Z.ltb_lt in Hc. now rewrite Hc.
Qed.

Lemma loop_continue wrap n m p limit s r val :
  (p < limit)%nat -> continues (m p) ->
  GetVarintPtr_loop wrap (S n) m p limit s r val =
  GetVarintPtr_loop wrap n m (S p) limit (s + 7)
    (Z.lor r (wrap (Z.shiftl (Z.land (uchar (m p)) 127) s))) val.
Proof.
  intros Hp Hc. cbn [GetVarintPtr_loop].
  apply Nat.ltb_lt in Hp. rewrite Hp, land_128.
  unfold continues in Hc.
  destruct (Z.ltb_spec (uchar (m p)) 128); [lia | reflexivity].
Qed.

Lemma loop_limit wrap n m p limit s r val :
  (limit <= p)%nat ->
  GetVarintPtr_loop wrap n m p limit s r val = (None, val).
Proof.
  intros Hp. destruct n; cbn [GetVarintPtr_loop]; [reflexivity|].
  apply Nat.ltb_ge in Hp. now rewrite Hp.
Qed.

(** On a run of continuation bytes closed by a final byte the loop succeeds
    and yields the payload. *)
Lemma loop_wellformed wrap : forall pre n m p limit s r val last,
  bytes_at m p (List.length pre + 1) = pre ++ [last] ->
  Forall continues pre -> uchar last < 128 ->
  (List.length pre < n)%nat -> (p + List.length pre < limit)%nat ->
  GetVarintPtr_loop wrap n m p limit s r val =
  (Some (p + List.length pre + 1)%nat,
   Z.lor r (varint_payload wrap (pre ++ [last]) s)).
Proof.
  induction pre as [|c pre IH]; intros n m p limit s r val last Hb Hpre Hlast Hn Hp.
  - cbn [List.length] in *. destruct n as [|n]; [lia|].
    cbn in Hb. injection Hb as Hb.
    rewrite loop_last by (rewrite ?Hb; lia).
    rewrite Hb. cbn [app varint_payload].
    rewrite Z.lor_0_r, land_127, (Z.mod_small (uchar last)) by
      (pose proof (uchar_range last); lia).
    f_equal. f_equal. lia.
  - cbn [List.length] in *. destruct n as [|n]; [lia|].
    cbn [Nat.add] in Hb. rewrite bytes_at_S in Hb. cbn [app] in Hb.
    injection Hb as Hc Hb.
    inversion Hpre as [|? ? Hcc Hpre']; subst.
    rewrite loop_continue by (assumption || lia).
    rewrite (IH n m (S p) limit (s + 7) _ val last Hb Hpre' Hlast) by lia.
    cbn [app varint_payload]. rewrite Z.lor_assoc.
    f_equal. f_equal. lia.
Qed.

(** When every byte up to [limit] is a continuation byte the loop fails and
    stores nothing. *)
Lemma loop_truncated wrap : forall n m p limit s r val,
  (forall q, (p <= q < limit)%nat -> continues (m q)) ->
  GetVarintPtr_loop wrap n m p limit s r val = (None, val).
Proof.
  induction n as [|n IH]; intros m p limit s r val H.
  - reflexivity.
  - destruct (Nat.lt_ge_cases p limit) as [L|G].
    + rewrite loop_continue by (try apply H; lia).
      apply IH. intros q Hq. apply H. lia.
    + now apply loop_limit.
Qed.

(** *** The pointer-range decoders *)

(** The fast path of [GetVarint32Ptr] computes what the fallback computes,
    so the two routines agree on every input. *)
Lemma GetVarint32Ptr_fallback m p limit val :
  GetVarint32Ptr m p limit val = GetVarint32PtrFallback m p limit val.
Proof.
  unfold GetVarint32Ptr, GetVarint32Ptr_with.
  destruct (Nat.ltb_spec p limit) as [L|G]; [ | reflexivity].
  pose proof (uchar_range (m p)) as Hr.
  rewrite uint32_small by lia. rewrite land_128.
  destruct (Z.ltb_spec (uchar (m p)) 128) as [Hc|Hc]; [ | reflexivity].
  unfold GetVarint32PtrFallback. rewrite loop_last by assumption.
  rewrite Z.shiftl_0_r, Z.lor_0_l, uint32_small by lia.
  now rewrite Nat.add_1_r.
Qed.

Lemma decode_encoding (w : Z) (n k : nat) m dst limit x val :
  0 <= x < 2 ^ (7 * Z.of_nat (S n)) -> x < 2 ^ w -> (n < k)%nat ->
  (dst + List.length (varint_bytes n x) <= limit)%nat ->
  bytes_at m dst (List.length (varint_bytes n x)) = varint_bytes n x ->
  GetVarintPtr_loop (fun z => z mod 2 ^ w) k m dst limit 0 0 val =
  (Some (dst + List.length (varint_bytes n x))%nat, x).
Proof.
  intros Hx Hw Hk Hlim Hb.
  pose proof (payload_varint_bytes w n x 0 Hx ltac:(lia)) as Hpay.
  rewrite Z.pow_0_r, Z.mul_1_r in Hpay. specialize (Hpay Hw).
  destruct (varint_bytes_shape n x Hx) as (pre & last & E & Hpre & Hlast & Hlen).
  rewrite E in *. rewrite length_app in *. cbn [List.length] in *.
  rewrite (loop_wellformed _ pre k m dst limit 0 0 val last Hb Hpre Hlast)
    by lia.
  rewrite Hpay, Z.lor_0_l. f_equal. f_equal. lia.
Qed.

(** C1: decoding with [GetVarint32Ptr] the bytes that [EncodeVarint32]
    wrote for a 32-bit [x] yields [x] and the pointer past the encoding;
    the same for a 64-bit [y] with [EncodeVarint64] and [GetVarint64Ptr]. *)
Theorem varint_roundtrip (m : Mem) (dst : ptr) (x y val : Z)
  (Hx : 0 <= x < 2 ^ 32) (Hy : 0 <= y < 2 ^ 64) :
  GetVarint32Ptr (fst (EncodeVarint32 m dst x)) dst
    (snd (EncodeVarint32 m dst x)) val
  = (Some (snd (EncodeVarint32 m dst x)), x) /\
  GetVarint64Ptr (fst (EncodeVarint64 m dst y)) dst
    (snd (EncodeVarint64 m dst y)) val
  = (Some (snd (EncodeVarint64 m dst y)), y).
Proof.
  split.
  - rewrite GetVarint32Ptr_fallback.
    unfold EncodeVarint32, GetVarint32PtrFallback. cbn [fst snd].
    rewrite uint32_small by assumption.
    apply (decode_encoding 32 4); try lia.
    apply FixedFacts.bytes_at_store_list.
  - unfold EncodeVarint64, GetVarint64Ptr. cbn [fst snd].
    rewrite uint64_small by assumption.
    apply (decode_encoding 64 9); try lia.
    apply FixedFacts.bytes_at_store_list.
Qed.

(** The round trip at 300 and at 2^40. *)
Lemma varint_roundtrip_witness :
  (0 <= 300 < 2 ^ 32 /\ 0 <= 1099511627776 < 2 ^ 64) /\
  GetVarint32Ptr (fst (EncodeVarint32 (mem_of_list []) 0 300)) 0
    (snd (EncodeVarint32 (mem_of_list []) 0 300)) 0
  = (Some (snd (EncodeVarint32 (mem_of_list []) 0 300)), 300) /\
  GetVarint64Ptr (fst (EncodeVarint64 (mem_of_list []) 0 1099511627776)) 0
    (snd (EncodeVarint64 (mem_of_list []) 0 1099511627776)) 0
  = (Some (snd (EncodeVarint64 (mem_of_list []) 0 1099511627776)),
     1099511627776).
Proof.
  assert (Hx : 0 <= 300 < 2 ^ 32) by (vm_compute; split; congruence).
  assert (Hy : 0 <= 1099511627776 < 2 ^ 64) by (vm_compute; split; congruence).
  split; [split; assumption | ].
  exact (varint_roundtrip (mem_of_list []) 0 300 1099511627776 0 Hx Hy).
Defined.

Lemma store_list_outside l : forall m p q,
  (q < p \/ p + List.length l <= q)%nat -> store_list m p l q = m q.
Proof.
  induction l as [|c l IH]; intros m p q H; cbn [store_list List.length] in *.
  - reflexivity.
  - rewrite IH by lia. apply FixedFacts.store_other. lia.
Qed.

Lemma length_varint_bytes (n : nat) (v : Z) :
  0 <= v < 2 ^ (7 * Z.of_nat (S n)) ->
  (1 <= List.length (varint_bytes n v) <= S n)%nat.
Proof.
  intros Hv.
  destruct (varint_bytes_shape n v Hv) as (pre & last & E & _ & _ & Hlen).
  rewrite E, length_app. cbn [List.length]. lia.
Qed.

(** What an encoder leaves in memory: the encoding at [dst], of the length
    that [VarintLength] gives, and every other cell as it was. *)
Lemma encoder_writes (n : nat) (m : Mem) (dst : ptr) (v : Z) :
  0 <= v < 2 ^ (7 * Z.of_nat (S n)) -> (n <= 9)%nat -> v < 2 ^ 64 ->
  let k := Z.to_nat (VarintLength v) in
  let m' := store_list m dst (varint_bytes n v) in
  1 <= VarintLength v <= Z.of_nat (S n) /\
  k = List.length (varint_bytes n v) /\
  bytes_at m' dst k = varint_bytes n v /\
  (forall a, (a < dst \/ dst + k <= a)%nat -> m' a = m a).
Proof.
  intros Hv Hn H64 k m'.
  assert (HL : VarintLength v = Z.of_nat (List.length (varint_bytes n v))).
  { unfold VarintLength. rewrite uint64_small by lia.
    rewrite (VarintLength_loop_length n 9 v 1) by lia. lia. }
  assert (Hk : k = List.length (varint_bytes n v))
    by (subst k; rewrite HL; apply Nat2Z.id).
  pose proof (length_varint_bytes n v Hv) as Hlen.
  repeat split; try lia.
  - subst m'. rewrite Hk. apply FixedFacts.bytes_at_store_list.
  - intros a Ha. subst m'. apply store_list_outside. lia.
Qed.

(** C2: [VarintLength(v)] is the number of bytes [EncodeVarint32]
    ([EncodeVarint64]) writes for [v]: the returned pointer is that many
    bytes past [dst], the memory holds the encoding of [v] in exactly those
    bytes, and no other byte of the memory is changed; 0, 127, 128, 16383,
    16384 and 2^32-1 take 1, 1, 2, 2, 3 and 5 bytes at both widths and
    2^64-1 takes 10 bytes. *)
Theorem VarintLength_is_bytes_written (m : Mem) (dst : ptr) (v w : Z)
  (Hv : 0 <= v < 2 ^ 32) (Hw : 0 <= w < 2 ^ 64) :
  let k32 := Z.to_nat (VarintLength v) in
  let m32 := fst (EncodeVarint32 m dst v) in
  let k64 := Z.to_nat (VarintLength w) in
  let m64 := fst (EncodeVarint64 m dst w) in
  (1 <= VarintLength v <= 5 /\
   snd (EncodeVarint32 m dst v) = (dst + k32)%nat /\
   bytes_at m32 dst k32 = PutVarint32 [] v /\
   varint_payload uint32 (bytes_at m32 dst k32) 0 = v /\
   (forall a, (a < dst \/ dst + k32 <= a)%nat -> m32 a = m a)) /\
  (1 <= VarintLength w <= 10 /\
   snd (EncodeVarint64 m dst w) = (dst + k64)%nat /\
   bytes_at m64 dst k64 = PutVarint64 [] w /\
   varint_payload uint64 (bytes_at m64 dst k64) 0 = w /\
   (forall a, (a < dst \/ dst + k64 <= a)%nat -> m64 a = m a)) /\
  VarintLength v = Z.of_nat (snd (EncodeVarint32 m dst v) - dst) /\
  VarintLength w = Z.of_nat (snd (EncodeVarint64 m dst w) - dst) /\
  map (fun z => bytes_at (fst (EncodeVarint32 m dst z)) dst
                  (snd (EncodeVarint32 m dst z) - dst))
    [0; 127; 128; 16383; 16384; 2 ^ 32 - 1]
  = [[x00]; [x7f]; [x80; x01]; [xff; x7f]; [x80; x80; x01];
     [xff; xff; xff; xff; x0f]] /\
  map (fun z => bytes_at (fst (EncodeVarint64 m dst z)) dst
                  (snd (EncodeVarint64 m dst z) - dst))
    [0; 127; 128; 16383; 16384; 2 ^ 32 - 1; 2 ^ 64 - 1]
  = [[x00]; [x7f]; [x80; x01]; [xff; x7f]; [x80; x80; x01];
     [xff; xff; xff; xff; x0f];
     [xff; xff; xff; xff; xff; xff; xff; xff; xff; x01]] /\
  map (fun z => (snd (EncodeVarint32 m dst z) - dst)%nat)
    [0; 127; 128; 16383; 16384; 2 ^ 32 - 1]
  = [1; 1; 2; 2; 3; 5]%nat /\
  map (fun z => (snd (EncodeVarint64 m dst z) - dst)%nat)
    [0; 127; 128; 16383; 16384; 2 ^ 32 - 1; 2 ^ 64 - 1]
  = [1; 1; 2; 2; 3; 5; 10]%nat /\
  map VarintLength [0; 127; 128; 16383; 16384; 2 ^ 32 - 1; 2 ^ 64 - 1]
  = [1; 1; 2; 2; 3; 5; 10].
Proof.
  intros k32 m32 k64 m64.
  assert (Hsub : forall n : nat, (dst + n - dst)%nat = n) by (intros; lia).
  assert (Hv' : 0 <= v < 2 ^ (7 * Z.of_nat 5)) by lia.
  assert (Hw' : 0 <= w < 2 ^ (7 * Z.of_nat 10)) by lia.
  destruct (encoder_writes 4 m dst v Hv' ltac:(lia) ltac:(lia))
    as (A1 & A2 & A3 & A4).
  destruct (encoder_writes 9 m dst w Hw' ltac:(lia) ltac:(lia))
    as (B1 & B2 & B3 & B4).
  pose proof (payload_varint_bytes 32 4 v 0 Hv' ltac:(lia)) as P32.
  pose proof (payload_varint_bytes 64 9 w 0 Hw' ltac:(lia)) as P64.
  rewrite Z.pow_0_r, Z.mul_1_r in P32, P64.
  specialize (P32 ltac:(lia)). specialize (P64 ltac:(lia)).
  subst m32 m64.
  unfold EncodeVarint32, EncodeVarint64, PutVarint32, PutVarint64.
  cbn [fst snd map app].
  rewrite !Hsub.
  rewrite (uint32_small v), (uint64_small w) by assumption.
  fold k32 in A2, A3, A4. fold k64 in B2, B3, B4.
  split; [ | split].
  - repeat split; try lia; try assumption.
    rewrite A3. exact P32.
  - repeat split; try lia; try assumption.
    rewrite B3. exact P64.
  - split; [lia | ]. split; [lia | ].
    split; [ | split; [ | repeat split; reflexivity]].
    + rewrite !FixedFacts.bytes_at_store_list. reflexivity.
    + rewrite !FixedFacts.bytes_at_store_list. reflexivity.
Qed.

(** 300 takes the 2 bytes ac 02 and 2^40 takes 6 bytes, written at address
    7 of a memory of zeros. *)
Lemma VarintLength_is_bytes_written_witness :
  (0 <= 300 < 2 ^ 32 /\ 0 <= 1099511627776 < 2 ^ 64) /\
  VarintLength 300 = 2 /\
  snd (EncodeVarint32 (mem_of_list []) 7 300) = 9%nat /\
  bytes_at (fst (EncodeVarint32 (mem_of_list []) 7 300)) 7 2 = [xac; x02] /\
  VarintLength 1099511627776
  = Z.of_nat (snd (EncodeVarint64 (mem_of_list []) 7 1099511627776) - 7).
Proof.
  assert (Hx : 0 <= 300 < 2 ^ 32) by (vm_compute; split; congruence).
  assert (Hy : 0 <= 1099511627776 < 2 ^ 64) by (vm_compute; split; congruence).
  split; [split; assumption | ].
  destruct (VarintLength_is_bytes_written (mem_of_list []) 7 300
              1099511627776 Hx Hy) as ((_ & H1 & H2 & _) & _ & H3 & H4 & _).
  exact (conj eq_refl (conj H1 (conj H2 H4))).
Defined.

(** C7: when [p < limit] and the first byte is below 128, [GetVarint32Ptr]
    stores that byte and returns [p + 1] whatever the fallback routine is,
    so without calling it; the fallback routine gives the same result. *)
Theorem GetVarint32Ptr_fast_path
  (Fallback : Mem -> ptr -> ptr -> Z -> option ptr * Z)
  (m : Mem) (p limit : ptr) (val : Z)
  (Hp : (p < limit)%nat) (Hb : uchar (m p) < 128) :
  GetVarint32Ptr_with Fallback m p limit val = (Some (p + 1)%nat, uchar (m p)) /\
  GetVarint32Ptr m p limit val = (Some (p + 1)%nat, uchar (m p)) /\
  GetVarint32PtrFallback m p limit val = (Some (p + 1)%nat, uchar (m p)).
Proof.
  assert (H : forall F, GetVarint32Ptr_with F m p limit val
                        = (Some (p + 1)%nat, uchar (m p))).
  { intros F. unfold GetVarint32Ptr_with.
    apply Nat.ltb_lt in Hp. rewrite Hp.
    pose proof (uchar_range (m p)) as Hr.
    rewrite uint32_small by lia. rewrite land_128.
    apply Z.ltb_lt in Hb. now rewrite Hb. }
  split; [apply H | ].
  split; [apply H | ].
  rewrite <- GetVarint32Ptr_fallback. apply H.
Qed.

(** The fast path on the single byte 0x05, with a fallback that always
    fails. *)
Lemma GetVarint32Ptr_fast_path_witness :
  ((0 < 1)%nat /\ uchar (mem_of_list [x05] 0%nat) < 128) /\
  GetVarint32Ptr_with (fun _ _ _ v => (None, v)) (mem_of_list [x05]) 0 1 0
  = (Some 1%nat, 5) /\
  GetVarint32PtrFallback (mem_of_list [x05]) 0 1 0 = (Some 1%nat, 5).
Proof.
  assert (Hp : (0 < 1)%nat) by lia.
  assert (Hb : uchar (mem_of_list [x05] 0%nat) < 128) by reflexivity.
  split; [split; assumption | ].
  destruct (GetVarint32Ptr_fast_path (fun _ _ _ v => (None, v))
              (mem_of_list [x05]) 0 1 0 Hp Hb) as (H1 & _ & H3).
  split; [exact H1 | exact H3].
Defined.

(** *** The cursor decoders *)

Lemma length_bytes_at m p n : List.length (bytes_at m p n) = n.
Proof. unfold bytes_at. now rewrite length_map, length_seq. Qed.

Lemma bytes_at_app m p a b :
  bytes_at m p (a + b) = bytes_at m p a ++ bytes_at m (p + a) b.
Proof. unfold bytes_at. now rewrite seq_app, map_app. Qed.

Lemma app_eq_same_length {A} : forall (l1 l3 l2 l4 : list A),
  l1 ++ l2 = l3 ++ l4 -> List.length l1 = List.length l3 ->
  l1 = l3 /\ l2 = l4.
Proof.
  induction l1 as [|a l1 IH]; intros [|c l3] l2 l4 E L;
    cbn in *; try discriminate.
  - now split.
  - injection E as -> E. destruct (IH l3 l2 l4 E) as [-> ->]; [lia | now split].
Qed.

(** A view whose bytes are [l1 ++ l2] splits into a view of [l1] and a view
    of [l2]. *)
Lemma bytes_at_split m p n l1 l2 :
  bytes_at m p n = l1 ++ l2 ->
  n = (List.length l1 + List.length l2)%nat /\
  bytes_at m p (List.length l1) = l1 /\
  bytes_at m (p + List.length l1) (List.length l2) = l2.
Proof.
  intros E.
  assert (Hn : n = (List.length l1 + List.length l2)%nat)
    by (rewrite <- length_app, <- E, length_bytes_at; reflexivity).
  split; [exact Hn | ].
  rewrite Hn, bytes_at_app in E.
  apply app_eq_same_length; [exact E | apply length_bytes_at].
Qed.

Lemma wellformed_front m input pre last rest :
  Slice.ToString m input = pre ++ last :: rest ->
  let k := (List.length pre + 1)%nat in
  bytes_at m (Slice.data input) k = pre ++ [last] /\
  (Slice.data input + List.length pre < Slice.data input + Slice.size input)%nat /\
  (Slice.data input + Slice.size input - (Slice.data input + k)
   = Slice.size input - k)%nat /\
  Slice.ToString m (Slice.mk (Slice.data input + k) (Slice.size input - k)) = rest.
Proof.
  intros E k. destruct input as [p n]. unfold Slice.ToString in *.
  cbn [Slice.data Slice.size Slice.data_ Slice.size_] in *.
  replace (pre ++ last :: rest) with ((pre ++ [last]) ++ rest) in E
    by (rewrite <- app_assoc; reflexivity).
  destruct (bytes_at_split m p n _ _ E) as (Hn & H1 & H2).
  rewrite length_app in *. cbn [List.length] in *. fold k in Hn, H1, H2.
  repeat split; try assumption; try lia.
  replace (n - k)%nat with (List.length rest) by lia. exact H2.
Qed.

Lemma GetVarintPtr_wellformed wrap (n : nat) m input val pre last rest :
  Slice.ToString m input = pre ++ last :: rest ->
  Forall continues pre -> uchar last < 128 -> (List.length pre < n)%nat ->
  GetVarintPtr_loop wrap n m (Slice.data input)
    (Slice.data input + Slice.size input) 0 0 val
  = (Some (Slice.data input + (List.length pre + 1))%nat,
     varint_payload wrap (pre ++ [last]) 0).
Proof.
  intros E Hpre Hlast Hn.
  destruct (wellformed_front m input pre last rest E) as (Hb & Hlim & _ & _).
  rewrite (loop_wellformed wrap pre n m _ _ 0 0 val last Hb Hpre Hlast Hn Hlim).
  rewrite Z.lor_0_l. f_equal. f_equal. lia.
Qed.

(** On a view that starts with a well-formed varint, [GetVarint32] succeeds,
    advances the view past it and stores the payload. *)
Lemma GetVarint32_wellformed m input val pre last rest :
  Slice.ToString m input = pre ++ last :: rest ->
  Forall continues pre -> uchar last < 128 -> (List.length pre <= 4)%nat ->
  GetVarint32 m input val =
  (true,
   Slice.mk (Slice.data input + (List.length pre + 1))
            (Slice.size input - (List.length pre + 1)),
   varint_payload uint32 (pre ++ [last]) 0).
Proof.
  intros E Hpre Hlast Hn. unfold GetVarint32.
  rewrite GetVarint32Ptr_fallback. unfold GetVarint32PtrFallback.
  rewrite (GetVarintPtr_wellformed uint32 5 m input val pre last rest)
    by (assumption || lia).
  destruct (wellformed_front m input pre last rest E) as (_ & _ & Hsz & _).
  now rewrite Hsz.
Qed.

Lemma GetVarint64_wellformed m input val pre last rest :
  Slice.ToString m input = pre ++ last :: rest ->
  Forall continues pre -> uchar last < 128 -> (List.length pre <= 9)%nat ->
  GetVarint64 m input val =
  (true,
   Slice.mk (Slice.data input + (List.length pre + 1))
            (Slice.size input - (List.length pre + 1)),
   varint_payload uint64 (pre ++ [last]) 0).
Proof.
  intros E Hpre Hlast Hn. unfold GetVarint64, GetVarint64Ptr.
  rewrite (GetVarintPtr_wellformed uint64 10 m input val pre last rest)
    by (assumption || lia).
  destruct (wellformed_front m input pre last rest E) as (_ & _ & Hsz & _).
  now rewrite Hsz.
Qed.

Lemma strict_prefix_continues : forall (l pre suf : list byte) last,
  l ++ suf = pre ++ [last] -> suf <> [] ->
  Forall continues pre -> Forall continues l.
Proof.
  induction l as [|c l IH]; intros pre suf last E Hs Hpre.
  - constructor.
  - destruct pre as [|c' pre]; cbn in E; injection E as -> E.
    + destruct l; cbn in E; [congruence | discriminate].
    + inversion Hpre; subst. constructor; [assumption | ].
      now apply (IH pre suf last).
Qed.

(** On a view that holds a strict prefix of an encoding the loop reaches
    [limit] without a final byte. *)
Lemma loop_strict_prefix wrap (n k : nat) m input val x suf :
  0 <= x < 2 ^ (7 * Z.of_nat (S n)) -> suf <> [] ->
  Slice.ToString m input ++ suf = varint_bytes n x ->
  GetVarintPtr_loop wrap k m (Slice.data input)
    (Slice.data input + Slice.size input) 0 0 val = (None, val).
Proof.
  intros Hx Hs E. apply loop_truncated. intros q Hq.
  destruct (varint_bytes_shape n x Hx) as (pre & last & Eb & Hpre & _ & _).
  rewrite Eb in E.
  pose proof (strict_prefix_continues _ _ _ _ E Hs Hpre) as Hall.
  rewrite Forall_forall in Hall. apply Hall.
  unfold Slice.ToString, bytes_at. apply in_map, in_seq.
  unfold Slice.data, Slice.size in Hq. lia.
Qed.

(** C5: [GetVarint32] and [GetVarint64] return a boolean.  On a view whose
    front bytes are a well-formed varint (continuation bytes closed by a
    byte below 128, within the width) they return true and advance the view
    past exactly those bytes.  Whenever the pointer decoder fails they
    return false and leave the view unchanged; this is the case for every
    view that holds a strict prefix of an encoding, on which the pointer
    decoders return NULL. *)
Theorem GetVarint_cursor_contract (m : Mem) (input : Slice.t) (val : Z) :
  (forall pre last rest,
      Slice.ToString m input = pre ++ last :: rest ->
      Forall continues pre -> uchar last < 128 ->
      let input' :=
        Slice.mk (Slice.data input + (List.length pre + 1))
                 (Slice.size input - (List.length pre + 1)) in
      Slice.ToString m input' = rest /\
      ((List.length pre <= 4)%nat ->
       GetVarint32 m input val
       = (true, input', varint_payload uint32 (pre ++ [last]) 0)) /\
      ((List.length pre <= 9)%nat ->
       GetVarint64 m input val
       = (true, input', varint_payload uint64 (pre ++ [last]) 0))) /\
  (forall v,
      GetVarint32Ptr m (Slice.data input)
        (Slice.data input + Slice.size input) val = (None, v) ->
      GetVarint32 m input val = (false, input, v)) /\
  (forall v,
      GetVarint64Ptr m (Slice.data input)
        (Slice.data input + Slice.size input) val = (None, v) ->
      GetVarint64 m input val = (false, input, v)) /\
  (forall x suf,
      0 <= x < 2 ^ 32 -> suf <> [] ->
      Slice.ToString m input ++ suf = PutVarint32 [] x ->
      GetVarint32Ptr m (Slice.data input)
        (Slice.data input + Slice.size input) val = (None, val) /\
      GetVarint32PtrFallback m (Slice.data input)
        (Slice.data input + Slice.size input) val = (None, val) /\
      GetVarint32 m input val = (false, input, val)) /\
  (forall y suf,
      0 <= y < 2 ^ 64 -> suf <> [] ->
      Slice.ToString m input ++ suf = PutVarint64 [] y ->
      GetVarint64Ptr m (Slice.data input)
        (Slice.data input + Slice.size input) val = (None, val) /\
      GetVarint64 m input val = (false, input, val)).
Proof.
  repeat apply conj.
  - intros pre last rest E Hpre Hlast input'. subst input'.
    destruct (wellformed_front m input pre last rest E) as (_ & _ & _ & Hrest).
    repeat split.
    + exact Hrest.
    + intros Hn. now apply (GetVarint32_wellformed m input val pre last rest).
    + intros Hn. now apply (GetVarint64_wellformed m input val pre last rest).
  - intros v H. unfold GetVarint32. now rewrite H.
  - intros v H. unfold GetVarint64. now rewrite H.
  - intros x suf Hx Hs E. unfold PutVarint32 in E. cbn [app] in E.
    rewrite uint32_small in E by assumption.
    assert (H : GetVarint32PtrFallback m (Slice.data input)
                  (Slice.data input + Slice.size input) val = (None, val)).
    { unfold GetVarint32PtrFallback.
      apply (loop_strict_prefix uint32 4 5 m input val x suf); try assumption.
      lia. }
    repeat split.
    + now rewrite GetVarint32Ptr_fallback.
    + exact H.
    + unfold GetVarint32. now rewrite GetVarint32Ptr_fallback, H.
  - intros y suf Hy Hs E. unfold PutVarint64 in E. cbn [app] in E.
    rewrite uint64_small in E by assumption.
    assert (H : GetVarint64Ptr m (Slice.data input)
                  (Slice.data input + Slice.size input) val = (None, val)).
    { unfold GetVarint64Ptr.
      apply (loop_strict_prefix uint64 9 10 m input val y suf); try assumption.
      lia. }
    split; [exact H | ].
    unfold GetVarint64. now rewrite H.
Qed.

(** The bytes ac 02 07: the varint 300 followed by one more byte; and the
    single byte ac, a strict prefix of the encoding of 300. *)
Lemma GetVarint_cursor_contract_witness :
  let m := mem_of_list [xac; x02; x07] in
  GetVarint32 m (Slice.mk 0 3) 0 = (true, Slice.mk 2 1, 300) /\
  GetVarint64 m (Slice.mk 0 3) 0 = (true, Slice.mk 2 1, 300) /\
  GetVarint32 m (Slice.mk 0 1) 0 = (false, Slice.mk 0 1, 0) /\
  GetVarint64 m (Slice.mk 0 1) 0 = (false, Slice.mk 0 1, 0).
Proof.
  intros m.
  assert (Hpre : Forall continues [xac])
    by (repeat constructor; vm_compute; congruence).
  assert (Hlast : uchar x02 < 128) by reflexivity.
  assert (Hx : 0 <= 300 < 2 ^ 32) by (vm_compute; split; congruence).
  assert (Hy : 0 <= 300 < 2 ^ 64) by (vm_compute; split; congruence).
  assert (Hs : [x02] <> []) by discriminate.
  destruct (GetVarint_cursor_contract m (Slice.mk 0 3) 0) as (H1 & _).
  destruct (H1 [xac] x02 [x07] eq_refl Hpre Hlast) as (_ & H32 & H64).
  destruct (GetVarint_cursor_contract m (Slice.mk 0 1) 0)
    as (_ & _ & _ & T32 & T64).
  destruct (T32 300 [x02] Hx Hs eq_refl) as (_ & _ & F32).
  destruct (T64 300 [x02] Hy Hs eq_refl) as (_ & F64).
  exact (conj (H32 ltac:(cbn; lia))
           (conj (H64 ltac:(cbn; lia)) (conj F32 F64))).
Defined.

Lemma lor_add_mul (n a b : Z) :
  0 <= n -> 0 <= a < 2 ^ n -> Z.lor a (b * 2 ^ n) = a + b * 2 ^ n.
Proof.
  intros Hn Ha. rewrite <- (lor_shiftl_add n a b Hn Ha).
  now rewrite Z.shiftl_mul_pow2.
Qed.

(** C6: on five bytes, four continuation bytes and a byte below 128, the
    32-bit decoders succeed whatever the fifth byte is: it contributes its
    low four bits only, and its bits 4 to 6, which lie beyond bit 31 of the
    result, are dropped. *)
Theorem GetVarint32Ptr_fifth_byte (m : Mem) (p limit : ptr) (val : Z)
  (c1 c2 c3 c4 c5 : byte)
  (Hb : bytes_at m p 5 = [c1; c2; c3; c4; c5])
  (H1 : continues c1) (H2 : continues c2) (H3 : continues c3)
  (H4 : continues c4) (H5 : uchar c5 < 128)
  (Hl : (p + 5 <= limit)%nat) :
  let v := uchar c1 mod 128
           + 2 ^ 7 * (uchar c2 mod 128)
           + 2 ^ 14 * (uchar c3 mod 128)
           + 2 ^ 21 * (uchar c4 mod 128)
           + 2 ^ 28 * (uchar c5 mod 16) in
  GetVarint32PtrFallback m p limit val = (Some (p + 5)%nat, v) /\
  GetVarint32Ptr m p limit val = (Some (p + 5)%nat, v).
Proof.
  intros v.
  assert (H : GetVarint32PtrFallback m p limit val = (Some (p + 5)%nat, v)).
  { unfold GetVarint32PtrFallback.
    rewrite (loop_wellformed uint32 [c1; c2; c3; c4] 5 m p limit 0 0 val c5);
      cbn [List.length app]; try assumption; try lia;
      [ | repeat constructor; assumption].
    f_equal; [f_equal; lia | ]. rewrite Z.lor_0_l. cbn [varint_payload].
    rewrite !land_127, Z.lor_0_r.
    change (0 + 7 + 7 + 7 + 7) with 28. change (0 + 7 + 7 + 7) with 21.
    change (0 + 7 + 7) with 14. change (0 + 7) with 7.
    pose proof (Z.mod_pos_bound (uchar c1) 128 ltac:(lia)) as B1.
    pose proof (Z.mod_pos_bound (uchar c2) 128 ltac:(lia)) as B2.
    pose proof (Z.mod_pos_bound (uchar c3) 128 ltac:(lia)) as B3.
    pose proof (Z.mod_pos_bound (uchar c4) 128 ltac:(lia)) as B4.
    pose proof (Z.mod_pos_bound (uchar c5) 16 ltac:(lia)) as B5.
    pose proof (uchar_range c5) as R5.
    rewrite (Z.mod_small (uchar c5) 128) by lia.
    rewrite !Z.shiftl_mul_pow2 by lia.
    rewrite !uint32_small by lia.
    assert (E5 : uint32 (uchar c5 * 2 ^ 28) = uchar c5 mod 16 * 2 ^ 28).
    { unfold uint32. change (2 ^ 32) with (16 * 2 ^ 28).
      rewrite Z.mul_mod_distr_r by lia. reflexivity. }
    rewrite E5. subst v.
    rewrite (lor_add_mul 28) by lia.
    replace (uchar c4 mod 128 * 2 ^ 21 + uchar c5 mod 16 * 2 ^ 28)
      with ((uchar c4 mod 128 + 128 * (uchar c5 mod 16)) * 2 ^ 21) by lia.
    rewrite (lor_add_mul 21) by lia.
    replace (uchar c3 mod 128 * 2 ^ 14 +
             (uchar c4 mod 128 + 128 * (uchar c5 mod 16)) * 2 ^ 21)
      with ((uchar c3 mod 128 + 128 * (uchar c4 mod 128
              + 128 * (uchar c5 mod 16))) * 2 ^ 14) by lia.
    rewrite (lor_add_mul 14) by lia.
    replace (uchar c2 mod 128 * 2 ^ 7 +
             (uchar c3 mod 128 + 128 * (uchar c4 mod 128
               + 128 * (uchar c5 mod 16))) * 2 ^ 14)
      with ((uchar c2 mod 128 + 128 * (uchar c3 mod 128 + 128 *
              (uchar c4 mod 128 + 128 * (uchar c5 mod 16)))) * 2 ^ 7) by lia.
    rewrite Z.pow_0_r, Z.mul_1_r.
    rewrite (lor_add_mul 7) by lia.
    lia. }
  split; [exact H | ].
  now rewrite GetVarint32Ptr_fallback.
Qed.

(** The bytes ff ff ff ff 7f decode to 2^32-1, as ff ff ff ff 0f do: bits
    4 to 6 of the fifth byte do not make the decoder fail. *)
Lemma GetVarint32Ptr_fifth_byte_witness :
  GetVarint32Ptr (mem_of_list [xff; xff; xff; xff; x7f]) 0 5 0
  = (Some 5%nat, 4294967295) /\
  GetVarint32PtrFallback (mem_of_list [xff; xff; xff; xff; x7f]) 0 5 0
  = (Some 5%nat, 4294967295) /\
  GetVarint32Ptr (mem_of_list [xff; xff; xff; xff; x0f]) 0 5 0
  = (Some 5%nat, 4294967295).
Proof.
  assert (Hc : continues xff) by (vm_compute; congruence).
  assert (H7 : uchar x7f < 128) by reflexivity.
  assert (Hf : uchar x0f < 128) by reflexivity.
  assert (Hl : (0 + 5 <= 5)%nat) by (cbn; lia).
  destruct (GetVarint32Ptr_fifth_byte
              (mem_of_list [xff; xff; xff; xff; x7f]) 0 5 0
              xff xff xff xff x7f eq_refl Hc Hc Hc Hc H7 Hl) as (A & B).
  destruct (GetVarint32Ptr_fifth_byte
              (mem_of_list [xff; xff; xff; xff; x0f]) 0 5 0
              xff xff xff xff x0f eq_refl Hc Hc Hc Hc Hf Hl) as (_ & C).
  exact (conj B (conj A C)).
Defined.

(** *** Length-prefixed slices *)







End VarintFacts.

Module StatusFacts.
Import Status.








End StatusFacts.

(** * Further properties of slice.h *)

Module SliceOrder.
Import Slice.

(** [memcmp] returns 0 exactly on equal byte ranges. *)
Lemma memcmp_eq_iff m : forall n p q,
  memcmp m p q n = 0 <-> bytes_at m p n = bytes_at m q n.
Proof.
  induction n as [|n IH]; intros p q.
  - split; reflexivity.
  - rewrite !bytes_at_S. cbn [memcmp].
    destruct (Z.eqb_spec (uchar (m p)) (uchar (m q))) as [E|E].
    + apply uchar_inj in E. rewrite E, IH.
      split; intros H; [now rewrite H | now injection H].
    + split; intros H; [lia | ].
      injection H as H _. now rewrite H in E.
Qed.

Lemma skipn_bytes_at m p n k :
  skipn k (bytes_at m p n) = bytes_at m (p + k) (n - k).
Proof.
  destruct (Nat.le_gt_cases k n) as [L|G].
  - replace n with (k + (n - k))%nat at 1 by lia.
    rewrite VarintFacts.bytes_at_app, skipn_app.
    rewrite VarintFacts.length_bytes_at, Nat.sub_diag.
    rewrite skipn_all2 by (rewrite VarintFacts.length_bytes_at; lia).
    reflexivity.
  - rewrite skipn_all2 by (rewrite VarintFacts.length_bytes_at; lia).
    replace (n - k)%nat with 0%nat by lia. reflexivity.
Qed.

Lemma firstn_bytes_at m p n k :
  (k <= n)%nat -> firstn k (bytes_at m p n) = bytes_at m p k.
Proof.
  intros L. replace n with (k + (n - k))%nat by lia.
  rewrite VarintFacts.bytes_at_app, firstn_app.
  rewrite VarintFacts.length_bytes_at, Nat.sub_diag.
  rewrite firstn_all2 by (rewrite VarintFacts.length_bytes_at; lia).
  cbn [firstn]. apply app_nil_r.
Qed.

(** *** The lexicographic order *)

Lemma lex_compare_refl : forall l, lex_compare l l = Eq.
Proof.
  induction l as [|c l IH]; cbn; [reflexivity | ].
  now rewrite Z.compare_refl.
Qed.

Lemma lex_compare_eq_iff : forall a b, lex_compare a b = Eq <-> a = b.
Proof.
  induction a as [|x a IH]; intros [|y b]; cbn;
    try (split; intros; discriminate); [split; reflexivity | ].
  destruct (Z.compare_spec (uchar x) (uchar y)) as [E|E|E].
  - apply uchar_inj in E. subst y. rewrite IH.
    split; intros H; [now rewrite H | now injection H].
  - split; intros H; [discriminate | injection H as -> _; lia].
  - split; intros H; [discriminate | injection H as -> _; lia].
Qed.

Lemma lex_compare_antisym : forall a b,
  lex_compare b a = CompOpp (lex_compare a b).
Proof.
  induction a as [|x a IH]; intros [|y b]; cbn; try reflexivity.
  rewrite (Z.compare_antisym (uchar x) (uchar y)).
  destruct (uchar x ?= uchar y); cbn; [apply IH | reflexivity | reflexivity].
Qed.

Lemma lex_compare_trans : forall a b c r,
  lex_compare a b = r -> lex_compare b c = r -> lex_compare a c = r.
Proof.
  induction a as [|x a IH]; intros [|y b] [|z c] r; cbn;
    try congruence.
  destruct (Z.compare_spec (uchar x) (uchar y)) as [E1|E1|E1];
    destruct (Z.compare_spec (uchar y) (uchar z)) as [E2|E2|E2];
    destruct (Z.compare_spec (uchar x) (uchar z)) as [E3|E3|E3];
    try lia; try congruence.
  apply IH.
Qed.

Lemma lex_compare_common_prefix : forall l u v,
  lex_compare (l ++ u) (l ++ v) = lex_compare u v.
Proof.
  induction l as [|c l IH]; intros u v; cbn; [reflexivity | ].
  now rewrite Z.compare_refl.
Qed.

Lemma lex_compare_prefix : forall l t,
  lex_compare l (l ++ t) = match t with [] => Eq | _ :: _ => Lt end.
Proof.
  intros l t. rewrite <- (app_nil_r l) at 1.
  rewrite lex_compare_common_prefix. destruct t; reflexivity.
Qed.

(** The sign of [compare] is the lexicographic order of the contents. *)
Lemma compare_sgn m a b :
  Z.sgn (compare m a b) =
  match lex_compare (ToString m a) (ToString m b) with
  | Lt => -1
  | Eq => 0
  | Gt => 1
  end.
Proof.
  destruct a as [pa na], b as [pb nb]. unfold ToString. cbn [data_ size_].
  pose proof (SliceFacts.compare_lex m na pa nb pb) as H.
  destruct (lex_compare (bytes_at m pa na) (bytes_at m pb nb)).
  - now rewrite H.
  - now apply Z.sgn_neg.
  - apply Z.sgn_pos. lia.
Qed.

Lemma sgn_neg_iff z : z < 0 <-> Z.sgn z = -1.
Proof. destruct z; cbn; split; intros; try lia; try discriminate. Qed.

Lemma sgn_zero_iff z : z = 0 <-> Z.sgn z = 0.
Proof. destruct z; cbn; split; intros; try lia; try discriminate. Qed.

Lemma compare_lt_iff m a b :
  compare m a b < 0 <-> lex_compare (ToString m a) (ToString m b) = Lt.
Proof.
  rewrite sgn_neg_iff, compare_sgn.
  destruct (lex_compare _ _); split; intros; congruence || lia.
Qed.

Lemma compare_eq_iff m a b :
  compare m a b = 0 <-> ToString m a = ToString m b.
Proof.
  rewrite sgn_zero_iff, compare_sgn, <- lex_compare_eq_iff.
  destruct (lex_compare _ _); split; intros; congruence || lia.
Qed.

Lemma compare_le_iff m a b :
  compare m a b <= 0 <-> lex_compare (ToString m a) (ToString m b) <> Gt.
Proof.
  pose proof (compare_lt_iff m a b) as Hl.
  pose proof (compare_eq_iff m a b) as He.
  rewrite <- lex_compare_eq_iff in He.
  destruct (lex_compare _ _); split; intros; try congruence; try lia.
  - assert (compare m a b = 0) by now apply He. lia.
  - assert (compare m a b < 0) by now apply Hl. lia.
  - exfalso. assert (compare m a b <> 0) by (rewrite He; discriminate).
    assert (~ compare m a b < 0) by (rewrite Hl; discriminate). lia.
Qed.

(** *** starts_with, == and the contents *)

Lemma starts_with_prefix m s x :
  starts_with m s x = true <-> exists t, ToString m s = ToString m x ++ t.
Proof.
  destruct s as [ps ns], x as [px nx].
  unfold starts_with, ToString. cbn [data_ size_].
  rewrite andb_true_iff, Nat.leb_le, Z.eqb_eq, memcmp_eq_iff.
  split.
  - intros [L E]. exists (bytes_at m (ps + nx) (ns - nx)).
    rewrite <- E, <- VarintFacts.bytes_at_app. f_equal. lia.
  - intros [t E].
    destruct (VarintFacts.bytes_at_split m ps ns _ _ E) as (Hn & H1 & _).
    rewrite VarintFacts.length_bytes_at in Hn, H1.
    split; [lia | exact H1].
Qed.

Lemma op_eq_content m x y :
  op_eq m x y = true <-> ToString m x = ToString m y.
Proof.
  destruct x as [px nx], y as [py ny].
  unfold op_eq, ToString, size, data. cbn [data_ size_].
  rewrite andb_true_iff, Nat.eqb_eq, Z.eqb_eq, memcmp_eq_iff.
  split.
  - intros [-> E]. exact E.
  - intros E.
    assert (nx = ny)
      by (rewrite <- (VarintFacts.length_bytes_at m px nx), E;
          apply VarintFacts.length_bytes_at).
    subst ny. split; [reflexivity | exact E].
Qed.

Lemma nth_error_bytes_at m : forall n p k,
  nth_error (bytes_at m p n) k
  = if Nat.ltb k n then Some (m (p + k)%nat) else None.
Proof.
  induction n as [|n IH]; intros p [|k]; try reflexivity.
  - rewrite bytes_at_S. cbn [nth_error]. now rewrite Nat.add_0_r.
  - rewrite bytes_at_S. cbn [nth_error]. rewrite IH.
    change (Nat.ltb (S k) (S n)) with (Nat.ltb k n).
    now rewrite Nat.add_succ_r.
Qed.

(** X1: [s.starts_with(x)] holds exactly when the bytes of [x] are a
    prefix of the bytes of [s]. *)
Theorem starts_with_iff_prefix (m : Mem) (s x : t) :
  starts_with m s x = true <-> exists rest, ToString m s = ToString m x ++ rest.
Proof. apply starts_with_prefix. Qed.

(** X2: [remove_prefix(n)] passes its assertion exactly when [n <= size()],
    and then the slice loses its first [n] bytes and keeps the others. *)
Theorem remove_prefix_drops (m : Mem) (s : t) (n : nat) :
  match remove_prefix s n with
  | Some s' =>
      (n <= size s)%nat /\
      size s' = (size s - n)%nat /\
      ToString m s' = skipn n (ToString m s) /\
      ToString m s = firstn n (ToString m s) ++ ToString m s'
  | None => (size s < n)%nat
  end.
Proof.
  unfold remove_prefix. destruct (Nat.leb_spec n (size s)) as [L|G].
  - assert (E : ToString m (mk (data_ s + n) (size_ s - n))
                = skipn n (ToString m s))
      by (unfold ToString; cbn [data_ size_]; now rewrite skipn_bytes_at).
    repeat split; try assumption.
    rewrite E. symmetry. apply firstn_skipn.
  - exact G.
Qed.

(** X3: removing [n] bytes and then [k] bytes is removing [n + k] bytes,
    and the one fails exactly when the other does. *)
Theorem remove_prefix_add (s : t) (n k : nat) :
  remove_prefix s (n + k) =
  match remove_prefix s n with
  | Some s' => remove_prefix s' k
  | None => None
  end.
Proof.
  unfold remove_prefix, size. cbn [data_ size_].
  destruct (Nat.leb_spec n (size_ s)) as [L|G]; cbn [data_ size_].
  - destruct (Nat.leb_spec (n + k) (size_ s)) as [L2|G2];
      destruct (Nat.leb_spec k (size_ s - n)) as [L3|G3]; try lia;
      [ | reflexivity].
    now rewrite Nat.add_assoc, Nat.sub_add_distr.
  - destruct (Nat.leb_spec (n + k) (size_ s)); [lia | reflexivity].
Qed.

(** X4: [operator[]] returns the [n]th byte of the content when
    [n < size()], and its assertion fails for every other index. *)
Theorem index_nth_error (m : Mem) (s : t) (n : nat) :
  index m s n = nth_error (ToString m s) n.
Proof.
  unfold index, ToString, size. now rewrite nth_error_bytes_at.
Qed.

(** X5: [x == y] holds exactly when the two slices have the same content,
    wherever they point; [x != y] holds exactly when the contents differ. *)
Theorem op_eq_iff_content (m : Mem) (x y : t) :
  (op_eq m x y = true <-> ToString m x = ToString m y) /\
  (op_ne m x y = true <-> ToString m x <> ToString m y).
Proof.
  pose proof (op_eq_content m x y) as H.
  split; [exact H | ].
  unfold op_ne. destruct (op_eq m x y); cbn; split; intros A.
  - discriminate.
  - exfalso. apply A, H. reflexivity.
  - intros B. apply H in B. discriminate.
  - reflexivity.
Qed.

(** X6: swapping the arguments of [compare] flips the sign of the
    result. *)
Theorem compare_antisymmetric (m : Mem) (a b : t) :
  Z.sgn (compare m b a) = - Z.sgn (compare m a b).
Proof.
  rewrite !compare_sgn, (lex_compare_antisym (ToString m a) (ToString m b)).
  destruct (lex_compare (ToString m a) (ToString m b)); reflexivity.
Qed.

(** X7: [compare] is transitive, strictly and weakly, and slices that
    compare equal compare alike with every third slice. *)
Theorem compare_transitive (m : Mem) (a b c : t) :
  (compare m a b < 0 -> compare m b c < 0 -> compare m a c < 0) /\
  (compare m a b <= 0 -> compare m b c <= 0 -> compare m a c <= 0) /\
  (compare m a b = 0 -> Z.sgn (compare m a c) = Z.sgn (compare m b c)).
Proof.
  repeat split.
  - rewrite !compare_lt_iff. apply lex_compare_trans.
  - rewrite !compare_le_iff. intros H1 H2.
    destruct (lex_compare (ToString m a) (ToString m b)) eqn:E1;
      [ | | congruence].
    + apply lex_compare_eq_iff in E1. now rewrite E1.
    + destruct (lex_compare (ToString m b) (ToString m c)) eqn:E2;
        [ | | congruence].
      * apply lex_compare_eq_iff in E2. rewrite <- E2, E1. discriminate.
      * rewrite (lex_compare_trans _ _ _ Lt E1 E2). discriminate.
  - rewrite compare_eq_iff, !compare_sgn. now intros ->.
Qed.

(** "ab" < "abc" < "abd". *)
Lemma compare_transitive_witness :
  (compare abc_mem s_ab s_abc < 0 /\ compare abc_mem s_abc s_abd < 0) /\
  compare abc_mem s_ab s_abd < 0.
Proof.
  assert (H1 : compare abc_mem s_ab s_abc < 0) by reflexivity.
  assert (H2 : compare abc_mem s_abc s_abd < 0) by reflexivity.
  destruct (compare_transitive abc_mem s_ab s_abc s_abd) as (T & _).
  exact (conj (conj H1 H2) (T H1 H2)).
Defined.

Lemma starts_with_split (m : Mem) (s x : t) :
  starts_with m s x = true ->
  exists s', remove_prefix s (size x) = Some s' /\
             ToString m s = ToString m x ++ ToString m s'.
Proof.
  intros H.
  pose proof H as H'. apply starts_with_prefix in H' as [rest E].
  unfold starts_with in H. apply andb_true_iff in H as [L _].
  apply Nat.leb_le in L.
  unfold remove_prefix, size. apply Nat.leb_le in L. rewrite L.
  eexists. split; [reflexivity | ].
  unfold ToString at 3. cbn [data_ size_].
  rewrite <- skipn_bytes_at. fold (ToString m s).
  rewrite E at 2. rewrite skipn_app.
  replace (size_ x) with (List.length (ToString m x))
    by apply VarintFacts.length_bytes_at.
  rewrite skipn_all, Nat.sub_diag. exact E.
Qed.

(** X8: when [s.starts_with(x)], [s.remove_prefix(x.size())] passes its
    assertion and leaves exactly what follows [x] in [s]. *)
Theorem starts_with_remove_prefix (m : Mem) (s x : t)
  (H : starts_with m s x = true) :
  exists s', remove_prefix s (size x) = Some s' /\
             ToString m s = ToString m x ++ ToString m s'.
Proof. now apply starts_with_split. Qed.

(** "abc" starts with "ab" and continues with "c". *)
Lemma starts_with_remove_prefix_witness :
  starts_with abc_mem s_abc s_ab = true /\
  exists s', remove_prefix s_abc (size s_ab) = Some s' /\
             ToString abc_mem s_abc = ToString abc_mem s_ab ++ ToString abc_mem s'.
Proof.
  assert (H : starts_with abc_mem s_abc s_ab = true) by reflexivity.
  exact (conj H (starts_with_remove_prefix abc_mem s_abc s_ab H)).
Defined.

(** X9: [starts_with] is reflexive and transitive, every slice starts with
    an empty slice, and two slices start with each other exactly when they
    are [==]. *)
Theorem starts_with_order (m : Mem) (s x y : t) :
  starts_with m s s = true /\
  (empty x = true -> starts_with m s x = true) /\
  (starts_with m s x = true -> starts_with m x y = true ->
   starts_with m s y = true) /\
  starts_with m s x && starts_with m x s = op_eq m s x.
Proof.
  repeat split.
  - apply starts_with_prefix. exists []. now rewrite app_nil_r.
  - unfold empty. rewrite Nat.eqb_eq. intros E.
    apply starts_with_prefix. exists (ToString m s).
    unfold ToString at 2. now rewrite E.
  - rewrite !starts_with_prefix. intros [t1 E1] [t2 E2].
    exists (t2 ++ t1). now rewrite E1, E2, app_assoc.
  - apply eq_true_iff_eq.
    rewrite andb_true_iff, !starts_with_prefix, op_eq_content.
    split.
    + intros [[t1 E1] [t2 E2]].
      assert (L : List.length (ToString m s)
                  = (List.length (ToString m s) + List.length t2
                     + List.length t1)%nat)
        by (rewrite E1 at 1; rewrite E2 at 1; now rewrite !length_app).
      assert (t1 = []) by (destruct t1; [reflexivity | cbn in L; lia]).
      subst t1. now rewrite app_nil_r in E1.
    + intros E. split; exists []; now rewrite app_nil_r, E.
Qed.

(** "abc" starts with "ab", "ab" starts with "a", so "abc" starts with
    "a". *)
Lemma starts_with_order_witness :
  (starts_with abc_mem s_abc s_ab = true /\
   starts_with abc_mem s_ab (mk 6 1) = true) /\
  starts_with abc_mem s_abc (mk 6 1) = true.
Proof.
  assert (H1 : starts_with abc_mem s_abc s_ab = true) by reflexivity.
  assert (H2 : starts_with abc_mem s_ab (mk 6 1) = true) by reflexivity.
  destruct (starts_with_order abc_mem s_abc s_ab (mk 6 1)) as (_ & _ & T & _).
  exact (conj (conj H1 H2) (T H1 H2)).
Defined.

(** X10: a prefix never sorts after the slice it starts: when
    [s.starts_with(x)], [x.compare(s) <= 0], with equality exactly when the
    sizes are equal. *)
Theorem prefix_sorts_first (m : Mem) (s x : t)
  (H : starts_with m s x = true) :
  compare m x s <= 0 /\ (compare m x s = 0 <-> size x = size s).
Proof.
  apply starts_with_prefix in H as [rest E].
  assert (Hs : size s = (size x + List.length rest)%nat).
  { unfold size. rewrite <- (VarintFacts.length_bytes_at m (data_ s) (size_ s)).
    fold (ToString m s). rewrite E, length_app.
    unfold ToString. now rewrite VarintFacts.length_bytes_at. }
  split.
  - rewrite compare_le_iff, E, lex_compare_prefix. destruct rest; discriminate.
  - rewrite compare_eq_iff, E. split.
    + intros A. rewrite <- (app_nil_r (ToString m x)) in A at 1.
      apply app_inv_head in A. subst rest. cbn in Hs. lia.
    + intros A. assert (rest = []) by (destruct rest; [reflexivity | cbn in Hs; lia]).
      subst rest. now rewrite app_nil_r.
Qed.

(** "ab" starts "abc" and sorts before it. *)
Lemma prefix_sorts_first_witness :
  starts_with abc_mem s_abc s_ab = true /\ compare abc_mem s_ab s_abc <= 0.
Proof.
  assert (H : starts_with abc_mem s_abc s_ab = true) by reflexivity.
  exact (conj H (proj1 (prefix_sorts_first abc_mem s_abc s_ab H))).
Defined.

(** X11: two slices that start with the same [x] compare as what is left of
    them after [remove_prefix(x.size())]. *)
Theorem compare_after_common_prefix (m : Mem) (a b x a' b' : t)
  (Ha : starts_with m a x = true) (Hb : starts_with m b x = true)
  (Ha' : remove_prefix a (size x) = Some a')
  (Hb' : remove_prefix b (size x) = Some b') :
  Z.sgn (compare m a' b') = Z.sgn (compare m a b).
Proof.
  destruct (starts_with_split m a x Ha) as (a2 & Ea & Ca).
  destruct (starts_with_split m b x Hb) as (b2 & Eb & Cb).
  rewrite Ea in Ha'. rewrite Eb in Hb'.
  injection Ha' as <-. injection Hb' as <-.
  rewrite !compare_sgn, Ca, Cb.
  now rewrite lex_compare_common_prefix.
Qed.

(** "abc" and "abd" after their common prefix "ab": "c" against "d". *)
Lemma compare_after_common_prefix_witness :
  (starts_with abc_mem s_abc s_ab = true /\
   starts_with abc_mem s_abd s_ab = true /\
   remove_prefix s_abc (size s_ab) = Some (mk 2 1) /\
   remove_prefix s_abd (size s_ab) = Some (mk 5 1)) /\
  Z.sgn (compare abc_mem (mk 2 1) (mk 5 1))
  = Z.sgn (compare abc_mem s_abc s_abd).
Proof.
  assert (H1 : starts_with abc_mem s_abc s_ab = true) by reflexivity.
  assert (H2 : starts_with abc_mem s_abd s_ab = true) by reflexivity.
  assert (H3 : remove_prefix s_abc (size s_ab) = Some (mk 2 1)) by reflexivity.
  assert (H4 : remove_prefix s_abd (size s_ab) = Some (mk 5 1)) by reflexivity.
  exact (conj (conj H1 (conj H2 (conj H3 H4)))
           (compare_after_common_prefix abc_mem s_abc s_abd s_ab
              (mk 2 1) (mk 5 1) H1 H2 H3 H4)).
Defined.

(** X18: after [remove_prefix(n)], [operator[]] at index [k] gives what it
    gave at index [n + k] before. *)
Theorem index_after_remove_prefix (m : Mem) (s : t) (n k : nat) :
  match remove_prefix s n with
  | Some s' => index m s' k = index m s (n + k)
  | None => (size s < n)%nat
  end.
Proof.
  unfold remove_prefix. destruct (Nat.leb_spec n (size s)) as [L|G];
    [ | exact G].
  unfold index, size in *. cbn [data_ size_].
  destruct (Nat.ltb_spec k (size_ s - n));
    destruct (Nat.ltb_spec (n + k) (size_ s)); try lia; [ | reflexivity].
  now rewrite Nat.add_assoc.
Qed.

End SliceOrder.

(** * Further properties of coding.h *)

Module CodingMore.
Import Coding.

Lemma le_value_inj : forall l l',
  List.length l = List.length l' -> le_value l = le_value l' -> l = l'.
Proof.
  induction l as [|c l IH]; intros [|c' l'] L E; cbn [List.length] in L;
    try discriminate; [reflexivity | ].
  cbn [le_value] in E.
  pose proof (uchar_range c). pose proof (uchar_range c').
  assert (Ec : uchar c = uchar c') by lia.
  assert (El : le_value l = le_value l') by lia.
  apply uchar_inj in Ec. subst c'.
  f_equal. apply IH; [lia | exact El].
Qed.

(** X12: [DecodeFixed32] returns a 32-bit value and [DecodeFixed64] a
    64-bit value, for every memory and on either kind of host: the shifts
    of the byte assembly never overflow. *)
Theorem DecodeFixed_bounds (kle : bool) (m : Mem) (p : ptr) :
  0 <= DecodeFixed32 kle m p < 2 ^ 32 /\
  0 <= DecodeFixed64 kle m p < 2 ^ 64.
Proof.
  pose proof (FixedFacts.DecodeFixed32_range kle m p) as Hlo.
  pose proof (FixedFacts.DecodeFixed32_range kle m (p + 4)%nat) as Hhi.
  split; [exact Hlo | ].
  rewrite FixedFacts.DecodeFixed64_sum. lia.
Qed.

(** X13: on either kind of host, [DecodeFixed64] at [p] is the
    [DecodeFixed32] at [p] in the low half and the [DecodeFixed32] at
    [p + 4] in the high half. *)
Theorem DecodeFixed64_halves (kle k1 k2 : bool) (m : Mem) (p : ptr) :
  DecodeFixed64 kle m p
  = DecodeFixed32 k1 m p + 2 ^ 32 * DecodeFixed32 k2 m (p + 4)%nat.
Proof.
  rewrite FixedFacts.DecodeFixed64_sum.
  now rewrite !(FixedFacts.DecodeFixed32_sum kle),
              (FixedFacts.DecodeFixed32_sum k1),
              (FixedFacts.DecodeFixed32_sum k2).
Qed.

(** X14: [DecodeFixed32] reads its 4 bytes and nothing else, and loses
    nothing: two decodings, on any two hosts, are equal exactly when the 4
    bytes are equal; the same for [DecodeFixed64] and its 8 bytes. *)
Theorem DecodeFixed_injective (k k' : bool) (m m' : Mem) (p p' : ptr) :
  (DecodeFixed32 k m p = DecodeFixed32 k' m' p'
   <-> bytes_at m p 4 = bytes_at m' p' 4) /\
  (DecodeFixed64 k m p = DecodeFixed64 k' m' p'
   <-> bytes_at m p 8 = bytes_at m' p' 8).
Proof.
  rewrite !FixedFacts.DecodeFixed32_le_value, !FixedFacts.DecodeFixed64_le_value.
  split; (split; intros E; [ | now rewrite E]);
    (apply le_value_inj;
     [now rewrite !VarintFacts.length_bytes_at | exact E]).
Qed.

(** The general loop looks at no byte outside [p..limit-1]. *)
Lemma GetVarintPtr_loop_local wrap : forall n m m' p limit s r v,
  (forall q, (p <= q < limit)%nat -> m q = m' q) ->
  GetVarintPtr_loop wrap n m p limit s r v
  = GetVarintPtr_loop wrap n m' p limit s r v.
Proof.
  induction n as [|n IH]; intros m m' p limit s r v H; cbn [GetVarintPtr_loop].
  - reflexivity.
  - destruct (Nat.ltb_spec p limit) as [L|G]; [ | reflexivity].
    rewrite <- (H p) by lia.
    destruct (Z.land (uchar (m p)) 128 =? 0); [reflexivity | ].
    apply IH. intros q Hq. apply H. lia.
Qed.

(** X15: the inline [GetVarint32Ptr] changes no result: with any fallback
    routine that decodes a single byte below 128 to that byte and [p + 1],
    it returns on every input what the fallback routine returns. *)
Theorem GetVarint32Ptr_with_transparent
  (Fallback : Mem -> ptr -> ptr -> Z -> option ptr * Z)
  (HF : forall m p limit v,
      (p < limit)%nat -> uchar (m p) < 128 ->
      Fallback m p limit v = (Some (p + 1)%nat, uchar (m p)))
  (m : Mem) (p limit : ptr) (v : Z) :
  GetVarint32Ptr_with Fallback m p limit v = Fallback m p limit v.
Proof.
  unfold GetVarint32Ptr_with.
  destruct (Nat.ltb_spec p limit) as [L|G]; [ | reflexivity].
  pose proof (uchar_range (m p)) as Hr.
  rewrite uint32_small by lia. rewrite VarintFacts.land_128.
  destruct (Z.ltb_spec (uchar (m p)) 128) as [Hc|Hc]; [ | reflexivity].
  symmetry. now apply HF.
Qed.

Lemma Fallback_single_byte m p limit v :
  (p < limit)%nat -> uchar (m p) < 128 ->
  GetVarint32PtrFallback m p limit v = (Some (p + 1)%nat, uchar (m p)).
Proof.
  intros L Hc. unfold GetVarint32PtrFallback.
  rewrite VarintFacts.loop_last by assumption.
  pose proof (uchar_range (m p)).
  rewrite Z.shiftl_0_r, Z.lor_0_l, uint32_small by lia.
  now rewrite Nat.add_1_r.
Qed.

(** With the modelled fallback, on the two-byte varint ac 02. *)
Lemma GetVarint32Ptr_with_transparent_witness :
  GetVarint32Ptr_with GetVarint32PtrFallback (mem_of_list [xac; x02]) 0 2 0
  = GetVarint32PtrFallback (mem_of_list [xac; x02]) 0 2 0.
Proof.
  exact (GetVarint32Ptr_with_transparent GetVarint32PtrFallback
           Fallback_single_byte (mem_of_list [xac; x02]) 0 2 0).
Defined.

(** X16: [GetVarint32Ptr] only looks at bytes in the range [p..limit-1],
    as long as its fallback routine does: memories that agree on that range
    give the same result. *)
Theorem GetVarint32Ptr_with_local
  (Fallback : Mem -> ptr -> ptr -> Z -> option ptr * Z)
  (HF : forall m m' p limit v,
      (forall q, (p <= q < limit)%nat -> m q = m' q) ->
      Fallback m p limit v = Fallback m' p limit v)
  (m m' : Mem) (p limit : ptr) (v : Z)
  (Hagree : forall q, (p <= q < limit)%nat -> m q = m' q) :
  GetVarint32Ptr_with Fallback m p limit v
  = GetVarint32Ptr_with Fallback m' p limit v.
Proof.
  unfold GetVarint32Ptr_with.
  destruct (Nat.ltb_spec p limit) as [L|G].
  - rewrite <- (Hagree p) by lia.
    destruct (Z.land (uint32 (uchar (m p))) 128 =? 0); [reflexivity | ].
    now apply HF.
  - now apply HF.
Qed.

(** Two buffers that hold ac 02 and differ in the byte after [limit]. *)
Lemma GetVarint32Ptr_with_local_witness :
  GetVarint32Ptr_with GetVarint32PtrFallback
    (mem_of_list [xac; x02; x07]) 0 2 0
  = GetVarint32Ptr_with GetVarint32PtrFallback
      (mem_of_list [xac; x02; xff]) 0 2 0.
Proof.
  apply (GetVarint32Ptr_with_local GetVarint32PtrFallback).
  - intros m m' p limit v H. now apply GetVarintPtr_loop_local.
  - intros [|[|q]] Hq; [reflexivity | reflexivity | lia].
Defined.

Lemma GetVarintPtr_loop_in_range wrap : forall n m p limit s r v q x,
  GetVarintPtr_loop wrap n m p limit s r v = (Some q, x) ->
  (p < q <= limit)%nat.
Proof.
  induction n as [|n IH]; intros m p limit s r v q x H;
    cbn [GetVarintPtr_loop] in H; [discriminate | ].
  destruct (Nat.ltb_spec p limit) as [L|G]; [ | discriminate].
  destruct (Z.land (uchar (m p)) 128 =? 0).
  - injection H as <- _. lia.
  - apply IH in H. lia.
Qed.

Lemma GetVarintPtr_loop_failure wrap : forall n m p limit s r v x,
  GetVarintPtr_loop wrap n m p limit s r v = (None, x) -> x = v.
Proof.
  induction n as [|n IH]; intros m p limit s r v x H;
    cbn [GetVarintPtr_loop] in H; [now injection H | ].
  destruct (Nat.ltb p limit); [ | now injection H].
  destruct (Z.land (uchar (m p)) 128 =? 0); [discriminate | ].
  now apply IH in H.
Qed.

(** X19: as long as its fallback routine does so, [GetVarint32Ptr] returns
    on success a pointer past [p] and not past [limit], and on failure
    leaves [*value] as it was. *)
Theorem GetVarint32Ptr_with_in_range
  (Fallback : Mem -> ptr -> ptr -> Z -> option ptr * Z)
  (HF1 : forall m p limit v q x,
      Fallback m p limit v = (Some q, x) -> (p < q <= limit)%nat)
  (HF2 : forall m p limit v x, Fallback m p limit v = (None, x) -> x = v)
  (m : Mem) (p limit : ptr) (v : Z) :
  (forall q x, GetVarint32Ptr_with Fallback m p limit v = (Some q, x) ->
               (p < q <= limit)%nat) /\
  (forall x, GetVarint32Ptr_with Fallback m p limit v = (None, x) -> x = v).
Proof.
  unfold GetVarint32Ptr_with.
  destruct (Nat.ltb_spec p limit) as [L|G].
  - destruct (Z.land (uint32 (uchar (m p))) 128 =? 0).
    + split; [intros q x H; injection H as <- _; lia | discriminate].
    + split; [apply HF1 | apply HF2].
  - split; [apply HF1 | apply HF2].
Qed.

(** With the modelled fallback: success on ac 02 within [0..2), failure on
    the same buffer within [0..1). *)
Lemma GetVarint32Ptr_with_in_range_witness :
  GetVarint32Ptr_with GetVarint32PtrFallback (mem_of_list [xac; x02]) 0 2 7
  = (Some 2%nat, 300) /\
  (0 < 2 <= 2)%nat /\
  GetVarint32Ptr_with GetVarint32PtrFallback (mem_of_list [xac; x02]) 0 1 7
  = (None, 7).
Proof.
  assert (H1 : GetVarint32Ptr_with GetVarint32PtrFallback
                 (mem_of_list [xac; x02]) 0 2 7 = (Some 2%nat, 300))
    by reflexivity.
  assert (H2 : GetVarint32Ptr_with GetVarint32PtrFallback
                 (mem_of_list [xac; x02]) 0 1 7 = (None, 7))
    by reflexivity.
  destruct (GetVarint32Ptr_with_in_range GetVarint32PtrFallback
              (fun m p limit v =>
                 GetVarintPtr_loop_in_range uint32 5 m p limit 0 0 v)
              (fun m p limit v =>
                 GetVarintPtr_loop_failure uint32 5 m p limit 0 0 v)
              (mem_of_list [xac; x02]) 0 2 7) as (S & _).
  exact (conj H1 (conj (S 2%nat 300 H1) H2)).
Defined.

End CodingMore.

(** * Further properties of status.h *)

Module StatusMore.
Import Status.

(** X17: a status answers true to at most one of [ok], [IsNotFound],
    [IsCorruption], [IsNotSupportedError], [IsInvalidArgument] and
    [IsIOError]; an OK status answers true to [ok] alone. *)
Theorem kind_predicates_exclusive (s : t) :
  (List.length
     (filter (fun b : bool => b)
        [ok s; IsNotFound s; IsCorruption s; IsNotSupportedError s;
         IsInvalidArgument s; IsIOError s]) <= 1)%nat /\
  (ok s = true ->
   IsNotFound s = false /\ IsCorruption s = false /\
   IsNotSupportedError s = false /\ IsInvalidArgument s = false /\
   IsIOError s = false).
Proof.
  destruct s as [[st|]];
    unfold ok, IsNotFound, IsCorruption, IsNotSupportedError,
      IsInvalidArgument, IsIOError, code; cbn [state_ Code_value].
  - split; [ | discriminate].
    destruct (Z.eqb_spec (uchar (nth 4 st x00)) 1) as [E1|E1];
      destruct (Z.eqb_spec (uchar (nth 4 st x00)) 2) as [E2|E2];
      destruct (Z.eqb_spec (uchar (nth 4 st x00)) 3) as [E3|E3];
      destruct (Z.eqb_spec (uchar (nth 4 st x00)) 4) as [E4|E4];
      destruct (Z.eqb_spec (uchar (nth 4 st x00)) 5) as [E5|E5];
      cbn; lia.
  - split; [cbn; lia | intros _; repeat split].
Qed.

(** The OK status. *)
Lemma kind_predicates_exclusive_witness :
  ok OK = true /\ IsNotFound OK = false /\ IsIOError OK = false.
Proof.
  assert (H : ok OK = true) by reflexivity.
  destruct (proj2 (kind_predicates_exclusive OK) H) as (A & _ & _ & _ & B).
  exact (conj H (conj A B)).
Defined.

End StatusMore.
